(** * Arena hero selection ([bestmobabot/arena.py]): a shallow embedding

    The Python functions of [arena.py] are rendered as Rocq functions.
    Exceptions are values of [exn] carried in a sum, Python [float]s are
    IEEE 754 binary64 numbers ([spec_float] at precision 53), generators
    over finite inputs are lists in yield order, and the one-pass iterator
    of [secretary_max] is the list of elements not consumed yet. *)

From Stdlib Require Import ZArith List Lia Bool Permutation Sorted String.
From Stdlib Require Import SpecFloat.
From Stdlib Require Vector.
Import ListNotations.

Set Implicit Arguments.
Open Scope Z_scope.

(** ** Python exceptions and the error monad *)

Module Py.

Inductive exn : Set :=
| TypeError
| ValueError
| IndexError
| RuntimeError
| UnboundLocalError
| OverflowError.

(** A computation either raises or returns. *)
Definition result (A : Type) : Type := (exn + A)%type.

Definition ret {A} (a : A) : result A := inr a.
Definition raise {A} (e : exn) : result A := inl e.

Definition bind {A B} (m : result A) (k : A -> result B) : result B :=
  match m with
  | inl e => inl e
  | inr a => k a
  end.

Definition raises {A} (m : result A) : Prop := exists e, m = inl e.

(** A list comprehension whose body may raise: the first failure wins. *)
Fixpoint mapM {A B} (f : A -> result B) (l : list A) : result (list B) :=
  match l with
  | [] => ret []
  | a :: l' =>
      bind (f a) (fun b => bind (mapM f l') (fun bs => ret (b :: bs)))
  end.

End Py.

Import Py.

Notation "x <- m ;; k" := (Py.bind m (fun x => k))
  (at level 61, m at next level, right associativity).
Notation "' pat <- m ;; k" := (Py.bind m (fun x => match x with pat => k end))
  (at level 61, pat pattern, m at next level, right associativity).

(** ** Python floats: IEEE 754 binary64 *)

Module Float64.

Definition prec : Z := 53.
Definition emax : Z := 1024.

Definition float : Set := spec_float.

Definition mul : float -> float -> float := SFmul prec emax.
Definition add : float -> float -> float := SFadd prec emax.
Definition sub : float -> float -> float := SFsub prec emax.
Definition div : float -> float -> float := SFdiv prec emax.

(** [a > b], [a <= b]; both are false as soon as one side is a NaN. *)
Definition gtb (a b : float) : bool := SFltb b a.
Definition leb (a b : float) : bool := SFleb a b.

Definition is_nan (a : float) : bool :=
  match a with S754_nan => true | _ => false end.

Definition zero : float := S754_zero false.
Definition one : float := S754_finite false 4503599627370496 (-52).

(** [math.e], the double 0x4005BF0A8B145769. *)
Definition math_e : float := S754_finite false 6121026514868073 (-51).

(** [float(n)] for a Python int: correctly rounded, [OverflowError] when
    the int is too large for a double. *)
Definition of_int (n : Z) : result float :=
  match binary_normalize prec emax n 0 false with
  | S754_infinity _ => raise OverflowError
  | f => ret f
  end.

(** [int(x)]: truncation towards zero; infinities and NaN are refused. *)
Definition to_int (x : float) : result Z :=
  match x with
  | S754_zero _ => ret 0
  | S754_infinity _ => raise OverflowError
  | S754_nan => raise ValueError
  | S754_finite s m e =>
      let a := match e with
               | Zneg p => Z.shiftr (Zpos m) (Zpos p)
               | _ => Z.shiftl (Zpos m) e
               end in
      ret (if s then - a else a)
  end.

End Float64.

(** ** itertools *)

Module Itertools.

Section Combinations.
Context {A : Type}.

(** [itertools.combinations(l, k)]: the [k]-element subsequences of [l],
    in lexicographic order of positions. *)
Fixpoint combinations (l : list A) (k : nat) : list (list A) :=
  match k with
  | O => [[]]
  | S k' =>
      match l with
      | [] => []
      | x :: l' => List.map (cons x) (combinations l' k') ++ combinations l' k
      end
  end.

(** [l] with the element at position [i] taken out. *)
Fixpoint remove_at (i : nat) (l : list A) : list A :=
  match l, i with
  | [], _ => []
  | _ :: l', O => l'
  | x :: l', S i' => x :: remove_at i' l'
  end.

(** [itertools.permutations(l)], by recursion on the length [n] of [l]:
    every position in turn supplies the first element. *)
Fixpoint permutations_aux (n : nat) (l : list A) : list (list A) :=
  match n with
  | O => [[]]
  | S n' =>
      List.flat_map
        (fun i => match nth_error l i with
                  | Some x => List.map (cons x) (permutations_aux n' (remove_at i l))
                  | None => []
                  end)
        (seq 0 (S n'))
  end.

Definition permutations (l : list A) : list (list A) :=
  permutations_aux (List.length l) l.
End Combinations.

(** [range(n)] as a list of naturals; empty for [n <= 0]. *)
Definition range (n : Z) : list nat := seq 0 (Z.to_nat n).

End Itertools.

Import Itertools.

(** ** Utilities of [arena.py] *)

Module Arena_util.

Section SecretaryMax.
(** [T1] are the items, [T2] their keys; [gt a b] is Python's [a > b]
    on keys. *)
Variables T1 T2 : Type.
Variable gt : T2 -> T2 -> bool.

(** [r = int(n / math.e) + 1]. *)
Definition secretary_r (n : Z) : result Z :=
  x <- Float64.of_int n ;;
  q <- Float64.to_int (Float64.div x Float64.math_e) ;;
  ret (q + 1).

(** [next(iterator)] inside the generator expression handed to [max]:
    running dry raises [StopIteration] there, which the generator turns
    into [RuntimeError]. The state is the list of pairs still to come. *)
Definition next_in_genexpr (iterator : list (T1 * T2))
  : result ((T1 * T2) * list (T1 * T2)) :=
  match iterator with
  | [] => raise RuntimeError
  | p :: rest => ret (p, rest)
  end.

(** [max(..., key=itemgetter(1), default=(None, None))] folded over the
    [count] pairs drawn from the iterator: [best] is the running maximum
    ([None] while nothing was drawn), replaced only by a strictly larger
    key. Returns the maximum and the iterator state left behind. *)
Fixpoint skip_max (count : nat) (best : option (T1 * T2))
    (iterator : list (T1 * T2))
  : result (option (T1 * T2) * list (T1 * T2)) :=
  match count with
  | O => ret (best, iterator)
  | S count' =>
      '(p, rest) <- next_in_genexpr iterator ;;
      let best' :=
        match best with
        | None => Some p
        | Some b => if gt (snd p) (snd b) then Some p else Some b
        end in
      skip_max count' best' rest
  end.

(** The [for] loop with [break]: [last] holds the loop variables as the
    previous iteration left them ([None]: still unbound). *)
Fixpoint first_better (max_key : option T2) (last : option (T1 * T2))
    (iterator : list (T1 * T2)) : option (T1 * T2) :=
  match iterator with
  | [] => last
  | (item, item_key) :: rest =>
      match max_key with
      | None => Some (item, item_key)
      | Some m =>
          if gt item_key m then Some (item, item_key)
          else first_better max_key (Some (item, item_key)) rest
      end
  end.

Definition secretary_max_key (items : list T1) (n : Z) (key : T1 -> T2)
  : result (T1 * T2) :=
  let iterator := List.map (fun item => (item, key item)) items in
  r <- secretary_r n ;;
  '(best, iterator') <- skip_max (List.length (range (r - 1))) None iterator ;;
  let max_key := option_map snd best in
  match first_better max_key None iterator' with
  | Some p => ret p
  | None => raise UnboundLocalError
  end.
End SecretaryMax.

(** [key=None]: the item is its own key. *)
Definition secretary_max (T : Type) (gt : T -> T -> bool)
    (items : list T) (n : Z) : result (T * T) :=
  secretary_max_key gt items n (fun item => item).

End Arena_util.

Import Arena_util.

(** ** Builtins: [sorted], [reduce], [max], indexing *)

Module Builtins.

Section Sorting.
Variables A K : Type.
(** [lt a b] is Python's [a < b] on keys; it may raise. *)
Variable lt : K -> K -> result bool.
Variable key : A -> K.

(** Insertion of [x], which stood before every element of the sorted
    [l]: it passes only the elements strictly smaller than itself. *)
Fixpoint insert (x : A) (l : list A) : result (list A) :=
  match l with
  | [] => ret [x]
  | y :: l' =>
      b <- lt (key y) (key x) ;;
      if b then (r <- insert x l' ;; ret (y :: r)) else ret (x :: y :: l')
  end.

(** A stable ascending sort that compares keys with [<] only. *)
Fixpoint sort (l : list A) : result (list A) :=
  match l with
  | [] => ret []
  | x :: l' => s <- sort l' ;; insert x s
  end.

(** [sorted(l, key=key, reverse=reverse)]: with [reverse] the list is
    reversed, sorted, and reversed again, which keeps the sort stable. *)
Definition sorted (l : list A) (reverse : bool) : result (list A) :=
  if reverse then (r <- sort (rev l) ;; ret (rev r)) else sort l.
End Sorting.

(** [functools.reduce(f, l)] without initial value. *)
Definition reduce {A} (f : A -> A -> A) (l : list A) : result A :=
  match l with
  | [] => raise TypeError
  | x :: l' => ret (fold_left f l' x)
  end.

Section MaxBy.
Variable A : Type.
Variable key : A -> Float64.float.

Fixpoint max_from (best : A) (l : list A) : A :=
  match l with
  | [] => best
  | x :: l' =>
      max_from (if Float64.gtb (key x) (key best) then x else best) l'
  end.

(** [max(l, key=key)]: a later element replaces the running best only
    when its key is strictly greater, so the first maximum is kept. *)
Definition max_by (l : list A) : result A :=
  match l with
  | [] => raise ValueError
  | x :: l' => ret (max_from x l')
  end.
End MaxBy.

(** [l[i]] and [l[i] = v] for [0 <= i]. *)
Definition getitem {A} (l : list A) (i : nat) : result A :=
  match nth_error l i with
  | Some a => ret a
  | None => raise IndexError
  end.

Fixpoint setitem {A} (l : list A) (i : nat) (v : A) : result (list A) :=
  match l, i with
  | [], _ => raise IndexError
  | _ :: l', O => ret (v :: l')
  | a :: l', S i' => r <- setitem l' i' v ;; ret (a :: r)
  end.

(** A set of strings, kept as the list of its members. *)
Abbreviation str_set := (list string).
Definition set_mem (k : string) (s : str_set) : bool :=
  existsb (String.eqb k) s.
Definition set_update (s : str_set) (ks : list string) : str_set := s ++ ks.

End Builtins.

Import Builtins.

(** ** numpy: one-dimensional integer arrays of a fixed shape *)

Module Numpy.

Section Arrays.
Variable dim : nat.

Definition ndarray : Set := Vector.t Z dim.

Definition add (a b : ndarray) : ndarray := Vector.map2 Z.add a b.
Definition subtract (a b : ndarray) : ndarray := Vector.map2 Z.sub a b.

(** [numpy.array(rows) - d]. With no row at all, [numpy.array([])] has
    shape (0,): either it does not broadcast against [d], or the
    one-dimensional batch is refused by the estimator; a [ValueError]
    both times. *)
Definition subtract_rows (rows : list ndarray) (d : ndarray)
  : result (list ndarray) :=
  match rows with
  | [] => raise ValueError
  | _ => ret (List.map (fun row => subtract row d) rows)
  end.
End Arrays.

(** [y.argmax()] on doubles: the index moves on every element that is not
    [<=] the running maximum, and a NaN ends the scan. *)
Fixpoint argmax_from (mp : Float64.float) (max_ind i : nat)
    (l : list Float64.float) : nat :=
  match l with
  | [] => max_ind
  | x :: l' =>
      if negb (Float64.leb x mp)
      then (if Float64.is_nan x then i else argmax_from x i (S i) l')
      else argmax_from mp max_ind (S i) l'
  end.

Definition argmax (y : list Float64.float) : result nat :=
  match y with
  | [] => raise ValueError
  | x :: l => ret (if Float64.is_nan x then O else argmax_from x O 1%nat l)
  end.

End Numpy.

(** ** [constants.py], [responses.py], [model.py] *)

Module Constants.
Definition TEAM_SIZE : nat := 5.
Definition N_GRAND_TEAMS : nat := 3.
Definition N_GRAND_HEROES : nat := N_GRAND_TEAMS * TEAM_SIZE.
End Constants.

Import Constants.

Module Responses.

Record Hero : Set := {
  id : string;
  level : Z;
  color : Z;
  star : Z;
  power : option Z
}.

End Responses.

Import Responses.

Module Model_py.

Section Model.
Variable dim : nat.

(** The estimator scores every row on its own: the pair holds the
    probabilities of the classes 0 (loss) and 1 (win). *)
Record Estimator : Type := {
  row_proba : Numpy.ndarray dim -> Float64.float * Float64.float
}.

Definition predict_proba (e : Estimator) (x : list (Numpy.ndarray dim))
  : list (Float64.float * Float64.float) :=
  List.map (row_proba e) x.

Record Model : Type := {
  estimator : Estimator;
  feature_names : list string
}.
End Model.

End Model_py.

Import Model_py.

(** ** [arena.py]: selection of attackers *)

Module Arena.

(** Python's [<] on the [power] attribute: [None] is not ordered. *)
Definition lt_power (a b : option Z) : result bool :=
  match a, b with
  | Some x, Some y => ret (x <? y)
  | _, _ => raise TypeError
  end.

Definition naive_select_attackers (heroes : list Hero) : result (list Hero) :=
  s <- sorted lt_power power heroes true ;;
  ret (firstn TEAM_SIZE s).

Section WithModel.
(** The length of the bound model's feature schema, and the
    [features] attribute that [set_model] attaches to every hero. The
    features are integers, as [model.py] types them, so that adding and
    subtracting them is exact. *)
Variable dim : nat.
Variable features : Hero -> Numpy.ndarray dim.

Definition make_team_features (heroes : list Hero)
  : result (Numpy.ndarray dim) :=
  reduce (@Numpy.add dim) (List.map features heroes).

(** [verbose] only switches a log line and is left out. *)
Definition model_select_attackers (model : Model dim)
    (heroes defenders : list Hero) : result (list Hero * Float64.float) :=
  let attackers_list := combinations heroes TEAM_SIZE in
  rows <- mapM make_team_features attackers_list ;;
  d <- make_team_features defenders ;;
  x <- Numpy.subtract_rows rows d ;;
  let y := List.map snd (predict_proba (estimator model) x) in
  index <- Numpy.argmax y ;;
  attackers <- getitem attackers_list index ;;
  p <- getitem y index ;;
  ret (attackers, p).

(** The state of one pass over the slots:
    [used_heroes], [attackers_teams], [probabilities]. *)
Definition pass_state : Type :=
  (str_set * list (list Hero) * list Float64.float)%type.

(** The body of [for i in order]. *)
Definition fill_slot (model : Model dim) (heroes : list Hero)
    (defenders_teams : list (list Hero)) (st : pass_state) (i : nat)
  : result pass_state :=
  let '(used_heroes, attackers_teams, probabilities) := st in
  let heroes_left :=
    List.filter (fun hero => negb (set_mem (id hero) used_heroes)) heroes in
  defenders <- getitem defenders_teams i ;;
  '(attackers, p) <- model_select_attackers model heroes_left defenders ;;
  probabilities' <- setitem probabilities i p ;;
  attackers_teams' <- setitem attackers_teams i attackers ;;
  ret (set_update used_heroes (List.map id attackers),
       attackers_teams', probabilities').

Fixpoint fill_slots (model : Model dim) (heroes : list Hero)
    (defenders_teams : list (list Hero)) (st : pass_state)
    (order : list nat) : result pass_state :=
  match order with
  | [] => ret st
  | i :: order' =>
      st' <- fill_slot model heroes defenders_teams st i ;;
      fill_slots model heroes defenders_teams st' order'
  end.

(** One turn of [for order in permutations(range(3))], up to the three
    probabilities. *)
Definition try_order (model : Model dim) (heroes : list Hero)
    (defenders_teams : list (list Hero)) (order : list nat)
  : result (list (list Hero) * list Float64.float) :=
  '(_, attackers_teams, probabilities) <-
    fill_slots model heroes defenders_teams
      ([], [[]; []; []], [Float64.zero; Float64.zero; Float64.zero]) order ;;
  ret (attackers_teams, probabilities).

(** The rest of the turn: the pair appended to [selections]. *)
Definition selection_of_order (model : Model dim) (heroes : list Hero)
    (defenders_teams : list (list Hero)) (order : list nat)
  : result (list (list Hero) * Float64.float) :=
  '(attackers_teams, probabilities) <-
    try_order model heroes defenders_teams order ;;
  match probabilities with
  | [p1; p2; p3] =>
      let p :=
        Float64.add
          (Float64.add
             (Float64.add
                (Float64.mul (Float64.mul p1 p2) p3)
                (Float64.mul (Float64.mul p1 p2) (Float64.sub Float64.one p3)))
             (Float64.mul (Float64.mul p2 p3) (Float64.sub Float64.one p1)))
          (Float64.mul (Float64.mul p1 p3) (Float64.sub Float64.one p2)) in
      ret (attackers_teams, p)
  | _ => raise ValueError
  end.

Definition model_select_grand_attackers (model : Model dim)
    (heroes : list Hero) (defenders_teams : list (list Hero))
  : result (list (list Hero) * Float64.float) :=
  selections <-
    mapM (selection_of_order model heroes defenders_teams)
         (permutations (range 3)) ;;
  max_by snd selections.
End WithModel.

Section ChooseMultiple.
(** Items are whatever carries an [id] attribute. *)
Variable T : Type.
Variable item_id : T -> string.

(** The generator, as the list of the tuples it yields, in order; a
    tuple is the list of its groups. *)
Fixpoint choose_multiple (items : list T) (n k : nat) : list (list (list T)) :=
  match n with
  | O => [[]]
  | S n' =>
      List.flat_map
        (fun head =>
           let used_keys := List.map item_id (List.concat head) in
           List.map (fun tail => head ++ [tail])
             (combinations
                (List.filter (fun item => negb (set_mem (item_id item) used_keys))
                   items)
                k))
        (choose_multiple items n' k)
  end.
End ChooseMultiple.

End Arena.

Import Arena.

(** ** Predicates used in the statements *)

(** Both powers are known and the first is at most the second. *)
Definition power_le (a b : Hero) : Prop :=
  match power a, power b with
  | Some x, Some y => x <= y
  | _, _ => False
  end.

Definition power_ge (a b : Hero) : Prop := power_le b a.

(** A hero with a known power, for the examples. *)
Definition hero_of (name : string) (p : Z) : Hero :=
  {| id := name; level := 1; color := 1; star := 1; power := Some p |}.

(** Two features for the examples: the level and the known power. *)
Definition features_demo (h : Hero) : Numpy.ndarray 2 :=
  Vector.cons _ (level h) _
    (Vector.cons _ (match power h with Some p => p | None => 0 end) _
       (Vector.nil _)).

(** [s] is [l] with some elements left out, the order kept. *)
Inductive subseq {A : Type} : list A -> list A -> Prop :=
| subseq_nil : subseq [] []
| subseq_take : forall x s l, subseq s l -> subseq (x :: s) (x :: l)
| subseq_skip : forall x s l, subseq s l -> subseq s (x :: l).

(** The binomial coefficient, by Pascal's rule. *)
Fixpoint binomial (n k : nat) : nat :=
  match k, n with
  | O, _ => 1
  | S _, O => 0
  | S k', S n' => binomial n' k' + binomial n' k
  end.

(** The win probability the model gives [attackers] against [defenders]:
    its score on the difference of the two teams' features. *)
Definition win_probability (dim : nat) (features : Hero -> Numpy.ndarray dim)
    (model : Model dim) (attackers defenders : list Hero)
  : result Float64.float :=
  a <- make_team_features features attackers ;;
  d <- make_team_features features defenders ;;
  ret (snd (row_proba (estimator model) (Numpy.subtract a d))).

(** The probability of winning at least two of three independent battles,
    as the specification writes it. *)
Definition majority (p1 p2 p3 : Float64.float) : Float64.float :=
  Float64.add
    (Float64.add
       (Float64.add
          (Float64.mul (Float64.mul p1 p2) p3)
          (Float64.mul (Float64.mul p1 p2) (Float64.sub Float64.one p3)))
       (Float64.mul (Float64.mul p2 p3) (Float64.sub Float64.one p1)))
    (Float64.mul (Float64.mul p1 p3) (Float64.sub Float64.one p2)).

(** No identifier is shared by the two groups. *)
Definition ids_disjoint {T : Type} (item_id : T -> string) (g1 g2 : list T)
  : Prop :=
  forall k, In k (List.map item_id g1) -> ~ In k (List.map item_id g2).

(** A model for the examples: a win is certain when the attackers hold
    the greater total power, and excluded otherwise. *)
Definition estimator_demo : Estimator 2 :=
  {| row_proba := fun x =>
       if 0 <? Vector.hd (Vector.tl x)
       then (Float64.zero, Float64.one)
       else (Float64.one, Float64.zero) |}.

Definition model_demo : Model 2 :=
  {| estimator := estimator_demo; feature_names := ["level"; "power"]%string |}.

Definition pool5_demo : list Hero :=
  [hero_of "a" 10; hero_of "b" 20; hero_of "c" 30; hero_of "d" 40;
   hero_of "e" 50].

Definition pool15_demo : list Hero :=
  [hero_of "a" 10; hero_of "b" 20; hero_of "c" 30; hero_of "d" 40;
   hero_of "e" 50; hero_of "f" 60; hero_of "g" 70; hero_of "h" 80;
   hero_of "i" 90; hero_of "j" 100; hero_of "k" 110; hero_of "l" 120;
   hero_of "m" 130; hero_of "n" 140; hero_of "o" 150].

Definition defenders_demo : list Hero :=
  [hero_of "x1" 15; hero_of "x2" 25; hero_of "x3" 35; hero_of "x4" 20;
   hero_of "x5" 25].

Definition defenders_teams_demo : list (list Hero) :=
  [defenders_demo;
   [hero_of "y1" 100; hero_of "y2" 100; hero_of "y3" 100; hero_of "y4" 100;
    hero_of "y5" 100];
   [hero_of "z1" 60; hero_of "z2" 60; hero_of "z3" 60; hero_of "z4" 60;
    hero_of "z5" 60]].

(** A tuple of [n] groups, each a [k]-combination of [items], with no
    identifier occurring twice in the whole tuple. *)
Definition disjoint_tuple {T : Type} (item_id : T -> string) (items : list T)
    (n k : nat) (t : list (list T)) : Prop :=
  List.length t = n
  /\ Forall (fun g => In g (combinations items k)) t
  /\ NoDup (List.map item_id (List.concat t)).

(** The number of ways to draw [n] groups of [k] in turn from [m] items. *)
Fixpoint tuples_count (m n k : nat) : nat :=
  match n with
  | O => 1
  | S n' => tuples_count m n' k * binomial (m - n' * k) k
  end.


Definition no_nan (y : list Float64.float) : Prop :=
  forall v, In v y -> Float64.is_nan v = false.

(** ** [responses.py]: users and arena enemies *)

Module User.
Record t : Set := {
  id : string;
  name : string;
  time_zone : Z; (* the offset of the fixed time zone, in hours *)
  clan_id : string
}.
End User.

Module ArenaEnemy.
Record t : Set := {
  user_id : string;
  place : string;
  heroes : list Hero;
  power : Z;
  user : option User.t
}.
End ArenaEnemy.

(** ** [arena.py]: selection of the enemy *)

Module Arena_enemy.

Section SelectEnemy.
Variable dim : nat.
Variable features : Hero -> Numpy.ndarray dim.

(** The element of the list comprehension for one enemy:
    [(enemy, *model_select_attackers(model, heroes, enemy.heroes))]. *)
Definition enemy_candidate (model : Model dim) (heroes : list Hero)
    (enemy : ArenaEnemy.t)
  : result (ArenaEnemy.t * list Hero * Float64.float) :=
  '(attackers, p) <-
    model_select_attackers features model heroes (ArenaEnemy.heroes enemy) ;;
  ret (enemy, attackers, p).

Definition select_enemy (model : Model dim) (enemies : list ArenaEnemy.t)
    (heroes : list Hero)
  : result (ArenaEnemy.t * list Hero * Float64.float) :=
  candidates <- mapM (enemy_candidate model heroes) enemies ;;
  max_by snd candidates.

(** [GrandArenaEnemy] is not declared in [responses.py]; all that is used
    of it is its [heroes] attribute, the three defending teams. *)
Variable GrandArenaEnemy : Type.
Variable grand_heroes : GrandArenaEnemy -> list (list Hero).

Definition grand_enemy_candidate (model : Model dim) (heroes : list Hero)
    (enemy : GrandArenaEnemy)
  : result (GrandArenaEnemy * list (list Hero) * Float64.float) :=
  '(attackers_teams, p) <-
    model_select_grand_attackers features model heroes (grand_heroes enemy) ;;
  ret (enemy, attackers_teams, p).

Definition select_grand_enemy (model : Model dim)
    (enemies : list GrandArenaEnemy) (heroes : list Hero)
  : result (GrandArenaEnemy * list (list Hero) * Float64.float) :=
  candidates <- mapM (grand_enemy_candidate model heroes) enemies ;;
  max_by snd candidates.
End SelectEnemy.

End Arena_enemy.

Import Arena_enemy.

(** Six heroes of powers 10 to 60, for the examples. *)
Definition pool6_demo : list Hero :=
  [hero_of "a" 10; hero_of "b" 20; hero_of "c" 30; hero_of "d" 40;
   hero_of "e" 50; hero_of "f" 60].

(** Two enemies for the examples: the weaker one comes second. *)
Definition enemies_demo : list ArenaEnemy.t :=
  [{| ArenaEnemy.user_id := "u1"; ArenaEnemy.place := "1";
      ArenaEnemy.heroes :=
        [hero_of "y1" 100; hero_of "y2" 100; hero_of "y3" 100;
         hero_of "y4" 100; hero_of "y5" 100];
      ArenaEnemy.power := 500; ArenaEnemy.user := None |};
   {| ArenaEnemy.user_id := "u2"; ArenaEnemy.place := "2";
      ArenaEnemy.heroes := defenders_demo;
      ArenaEnemy.power := 120; ArenaEnemy.user := None |}].

(** The running maximum that [max] keeps while it draws pairs: a pair
    replaces the best one so far only when its key is strictly greater. *)
Definition running_max {T1 T2 : Type} (gt : T2 -> T2 -> bool)
    (best : option (T1 * T2)) (l : list (T1 * T2)) : option (T1 * T2) :=
  fold_left
    (fun b p => match b with
                | None => Some p
                | Some b' => if gt (snd p) (snd b') then Some p else Some b'
                end)
    l best.

(** The hero's power is known and equal to [v]. *)
Definition has_power (v : Z) (h : Hero) : bool :=
  match power h with
  | Some p => p =? v
  | None => false
  end.

(** A hero whose power is not known. *)
Definition hero_unknown (name : string) : Hero :=
  {| id := name; level := 1; color := 1; star := 1; power := None |}.

(** ** [bot.py]: the time of the next alarm *)

Module Bot.

(** A [datetime] of one fixed-offset time zone, as the number of
    microseconds that its wall clock shows since [datetime.min]; a
    [timedelta] is a number of microseconds as well. *)
Definition datetime : Set := Z.
Definition timedelta : Set := Z.

Definition SECOND : Z := 1000000.
Definition DAY : Z := 86400 * SECOND.

(** [datetime.max], 9999-12-31 23:59:59.999999. *)
Definition MAX_DATETIME : datetime := 3652059 * DAY - 1.

(** The fields of [datetime.time] that are read. *)
Record time : Set := {
  hour : Z;
  minute : Z;
  second : Z
}.

Definition DEFAULT_INTERVAL : timedelta := DAY.
Definition FARM_MAIL_INTERVAL : timedelta := 6 * 3600 * SECOND.
Definition ARENA_INTERVAL : timedelta := 288 * 60 * SECOND.

(** [dt.replace(microsecond=0)]. *)
Definition replace_microsecond_0 (dt : datetime) : datetime :=
  dt - dt mod SECOND.

(** [dt.replace(hour=h, minute=m, second=s)]: the date and the
    microseconds stay. *)
Definition replace_time (dt : datetime) (h m s : Z) : datetime :=
  dt - dt mod DAY + (h * 3600 + m * 60 + s) * SECOND + dt mod SECOND.

(** [dt + interval], refused outside [datetime.min .. datetime.max]. *)
Definition add_timedelta (dt : datetime) (interval : timedelta)
  : result datetime :=
  let r := dt + interval in
  if (0 <=? r) && (r <=? MAX_DATETIME) then ret r else raise OverflowError.

(** [while dt < now: dt += interval], for at most [fuel] turns; [None]
    when the turns do not suffice. *)
Fixpoint alarm_loop (fuel : nat) (dt now : datetime) (interval : timedelta)
  : option (result datetime) :=
  if dt <? now then
    match fuel with
    | O => None
    | S fuel' =>
        match add_timedelta dt interval with
        | inl e => Some (inl e)
        | inr dt' => alarm_loop fuel' dt' now interval
        end
    end
  else Some (ret dt).

(** [clock] is what [datetime.now(time_zone)] reads. *)
Definition alarm_time (fuel : nat) (clock : datetime) (time_ : time)
    (interval : timedelta) : option (result datetime) :=
  let now := replace_microsecond_0 clock in
  let dt := replace_time now (hour time_) (minute time_) (second time_) in
  alarm_loop fuel dt now interval.

(** A time of day as [datetime.time] admits it. *)
Definition valid_time (t : time) : Prop :=
  0 <= hour t < 24 /\ 0 <= minute t < 60 /\ 0 <= second t < 60.

Definition valid_datetime (dt : datetime) : Prop := 0 <= dt <= MAX_DATETIME.

End Bot.

(** ** [model.py]: the features of a recorded battle *)

Module Trainer.

(** A [Dict[str, int]], as the list of its items in insertion order. *)
Definition int_dict : Set := list (string * Z).

Fixpoint dict_get (d : int_dict) (key : string) : option Z :=
  match d with
  | [] => None
  | (k, v) :: d' => if String.eqb k key then Some v else dict_get d' key
  end.

(** [d[key] = value]: an old key keeps its place, a new one goes last. *)
Fixpoint dict_set (d : int_dict) (key : string) (value : Z) : int_dict :=
  match d with
  | [] => [(key, value)]
  | (k, v) :: d' =>
      if String.eqb k key then (k, value) :: d'
      else (k, v) :: dict_set d' key value
  end.

(** [result[key] += delta] on a [defaultdict(int)]. *)
Definition defaultdict_add (result : int_dict) (key : string) (delta : Z)
  : int_dict :=
  let old := match dict_get result key with Some v => v | None => 0 end in
  dict_set result key (old + delta).

Section ParseHeroes.
(** The dictionaries of a replay, and the items of
    [responses.Hero(hero).feature_dict], which [responses.py] does not
    define. *)
Variable RawHero : Type.
Variable feature_dict : RawHero -> int_dict.

Definition parse_heroes (heroes : list RawHero) (is_attackers : bool)
    (result : int_dict) : int_dict :=
  let multiplier := if is_attackers then 1 else -1 in
  fold_left
    (fun result hero =>
       fold_left
         (fun result kv => defaultdict_add result (fst kv) (multiplier * snd kv))
         (feature_dict hero) result)
    heroes result.
End ParseHeroes.

End Trainer.

(** The value of a [defaultdict(int)] at a key: 0 when the key is absent. *)
Definition value_at (d : Trainer.int_dict) (key : string) : Z :=
  match Trainer.dict_get d key with Some v => v | None => 0 end.

(** The total of the feature [key] over the feature dictionaries of the
    heroes. *)
Definition feature_total {RawHero : Type}
    (feature_dict : RawHero -> Trainer.int_dict) (key : string)
    (heroes : list RawHero) : Z :=
  fold_right (fun hero acc => value_at (feature_dict hero) key + acc) 0 heroes.

(** No key occurs twice among the items. *)
Definition dict_keys_unique (d : Trainer.int_dict) : Prop :=
  NoDup (List.map fst d).

(** * Properties *)

(** ** The optimal-stopping selector *)

Section SecretaryFacts.
Variables T1 T2 : Type.
Variable gt : T2 -> T2 -> bool.

Lemma secretary_r_small (n : Z) : 0 <= n <= 2 -> secretary_r n = inr 1.
Proof.
  intros Hn.
  assert (n = 0 \/ n = 1 \/ n = 2) as [-> | [-> | ->]] by lia;
    vm_compute; reflexivity.
Qed.

(** On an exhausted iterator the skip phase either draws nothing or
    fails at its first [next]. *)
Lemma skip_max_nil (count : nat) (best : option (T1 * T2)) :
  skip_max gt count best [] =
  match count with O => inr (best, []) | S _ => inl RuntimeError end.
Proof. destruct count; reflexivity. Qed.

Lemma secretary_max_key_nil (n : Z) (key : T1 -> T2) :
  secretary_max_key gt [] n key =
  match secretary_r n with
  | inl e => inl e
  | inr r =>
      match range (r - 1) with
      | [] => inl UnboundLocalError
      | _ :: _ => inl RuntimeError
      end
  end.
Proof.
  unfold secretary_max_key. simpl List.map.
  destruct (secretary_r n) as [e | r]; simpl; [reflexivity |].
  rewrite skip_max_nil.
  destruct (range (r - 1)); reflexivity.
Qed.
End SecretaryFacts.

(** C3: on [1..10] with [n = 10] and the identity key, [r] is 4, the three
    skipped items leave the maximum key 3 and the items from 4 on, and the
    selector returns item 4. *)
Theorem secretary_max_one_to_ten :
  secretary_r 10 = inr 4
  /\ skip_max Z.gtb 3 None
       (List.map (fun item => (item, item)) [1; 2; 3; 4; 5; 6; 7; 8; 9; 10])
     = inr (Some (3, 3),
            List.map (fun item => (item, item)) [4; 5; 6; 7; 8; 9; 10])
  /\ secretary_max Z.gtb [1; 2; 3; 4; 5; 6; 7; 8; 9; 10] 10 = inr (4, 4).
Proof. repeat split; vm_compute; reflexivity. Qed.

(** C8: on a sequence that yields nothing the selector fails, whatever the
    expected count and the key: with [UnboundLocalError] when nothing is to
    be skipped, with [RuntimeError] at the first [next] otherwise, and with
    the error of [int(n / math.e)] when that fails first. *)
Theorem secretary_max_empty_fails :
  forall (T1 T2 : Type) (gt : T2 -> T2 -> bool) (n : Z) (key : T1 -> T2),
    raises (secretary_max_key gt [] n key)
    /\ secretary_max_key gt [] n key =
       match secretary_r n with
       | inl e => inl e
       | inr r =>
           match range (r - 1) with
           | [] => inl UnboundLocalError
           | _ :: _ => inl RuntimeError
           end
       end
    /\ forall T (gt' : T -> T -> bool), raises (secretary_max gt' [] n).
Proof.
  intros T1 T2 gt n key.
  assert (H : forall (A B : Type) (g : B -> B -> bool) (k : A -> B),
             raises (secretary_max_key g [] n k)).
  { intros A B g k. rewrite secretary_max_key_nil.
    destruct (secretary_r n) as [e | r].
    - exists e; reflexivity.
    - destruct (range (r - 1)); eexists; reflexivity. }
  split; [apply H |]. split; [apply secretary_max_key_nil |].
  intros T g; apply H.
Qed.

(** C10: with an expected count of 0, 1 or 2 the radius [r] is 1, nothing
    is skipped, no maximum is tracked, and the first item of a non-empty
    sequence is returned with its key. *)
Theorem secretary_max_small_count_first :
  forall (T1 T2 : Type) (gt : T2 -> T2 -> bool) (n : Z) (key : T1 -> T2)
         (item : T1) (rest : list T1),
    0 <= n <= 2 ->
    secretary_r n = inr 1
    /\ skip_max gt (List.length (range (1 - 1))) None
         (List.map (fun i => (i, key i)) (item :: rest))
       = inr (None, List.map (fun i => (i, key i)) (item :: rest))
    /\ secretary_max_key gt (item :: rest) n key = inr (item, key item).
Proof.
  intros T1 T2 gt n key item rest Hn.
  pose proof (secretary_r_small Hn) as Hr.
  repeat split; [exact Hr | ].
  unfold secretary_max_key. rewrite Hr. reflexivity.
Qed.

Lemma secretary_max_small_count_first_witness :
  0 <= 2 <= 2
  /\ secretary_max_key Z.gtb [7; 3; 9] 2 (fun i => i * i) = inr (7, 49).
Proof.
  split; [lia |].
  apply (secretary_max_small_count_first Z.gtb (fun i => i * i) 7 [3; 9]
           (n := 2)).
  lia.
Defined.

(** ** Naive selection: the sort by descending power *)

Lemma power_le_trans (a b c : Hero) :
  power_le a b -> power_le b c -> power_le a c.
Proof.
  unfold power_le.
  destruct (power a), (power b), (power c); try tauto; lia.
Qed.

Lemma insert_power_sorted (x : Hero) (l : list Hero) :
  power x <> None ->
  (forall h, In h l -> power h <> None) ->
  StronglySorted power_le l ->
  exists r, insert lt_power power x l = inr r
            /\ Permutation (x :: l) r
            /\ StronglySorted power_le r.
Proof.
  intros Hx. induction l as [| y l IH]; intros Hl Hs.
  - exists [x]. repeat split; auto. repeat constructor.
  - assert (Hy : power y <> None) by (apply Hl; left; reflexivity).
    inversion Hs as [| ? ? Hs' Hall]; subst.
    simpl. unfold lt_power at 1.
    destruct (power y) as [py |] eqn:Ey; [| congruence].
    destruct (power x) as [px |] eqn:Ex; [| congruence].
    simpl. destruct (py <? px) eqn:Hlt.
    + destruct IH as (r & Hr & Hp & Hsr); auto.
      { intros h Hh. apply Hl. right; exact Hh. }
      rewrite Hr. simpl. exists (y :: r). repeat split.
      * rewrite perm_swap. constructor. exact Hp.
      * constructor; [exact Hsr |].
        apply (Permutation_Forall Hp). constructor; [| exact Hall].
        unfold power_le. rewrite Ey, Ex. apply Z.ltb_lt in Hlt. lia.
    + exists (x :: y :: l). repeat split; auto.
      assert (Hxy : power_le x y).
      { unfold power_le. rewrite Ey, Ex. apply Z.ltb_ge in Hlt. lia. }
      constructor; [exact Hs |]. constructor; [exact Hxy |].
      eapply Forall_impl; [| exact Hall].
      intros z Hz. eapply power_le_trans; eauto.
Qed.

Lemma sort_power_sorted (l : list Hero) :
  (forall h, In h l -> power h <> None) ->
  exists r, sort lt_power power l = inr r
            /\ Permutation l r
            /\ StronglySorted power_le r.
Proof.
  induction l as [| x l IH]; intros Hl.
  - exists []. repeat split; auto. constructor.
  - destruct IH as (s & Hs & Hp & Hss).
    { intros h Hh. apply Hl. right; exact Hh. }
    destruct (@insert_power_sorted x s) as (r & Hr & Hpr & Hsr); auto.
    { apply Hl. left; reflexivity. }
    { intros h Hh. apply Hl. right.
      apply Permutation_sym in Hp. eapply Permutation_in; eauto. }
    simpl. rewrite Hs. simpl. exists r. repeat split; auto.
    rewrite <- Hpr. constructor. exact Hp.
Qed.

Lemma StronglySorted_snoc {A} (R : A -> A -> Prop) (l : list A) (x : A) :
  StronglySorted R l -> Forall (fun y => R y x) l ->
  StronglySorted R (l ++ [x]).
Proof.
  induction 1 as [| y l Hs IH Hall]; intros Hx; simpl.
  - repeat constructor.
  - inversion Hx; subst. constructor; [apply IH; assumption |].
    apply Forall_app. split; [exact Hall | repeat constructor; assumption].
Qed.

Lemma StronglySorted_rev {A} (R : A -> A -> Prop) (l : list A) :
  StronglySorted R l -> StronglySorted (fun a b => R b a) (rev l).
Proof.
  induction 1 as [| y l Hs IH Hall]; simpl.
  - constructor.
  - apply StronglySorted_snoc; [exact IH |].
    apply Forall_rev. exact Hall.
Qed.

(** C9: when every power is known and there are fewer than [TEAM_SIZE]
    heroes, the naive selection raises nothing and returns all of them in
    descending order of power: a team shorter than [TEAM_SIZE]. *)
Theorem naive_select_attackers_short :
  forall heroes : list Hero,
    (forall h, In h heroes -> power h <> None) ->
    (List.length heroes < TEAM_SIZE)%nat ->
    exists team,
      naive_select_attackers heroes = inr team
      /\ Permutation heroes team
      /\ StronglySorted power_ge team
      /\ (List.length team < TEAM_SIZE)%nat.
Proof.
  intros heroes Hknown Hlen.
  destruct (@sort_power_sorted (rev heroes)) as (r & Hr & Hp & Hs).
  { intros h Hh. apply Hknown. apply in_rev. exact Hh. }
  assert (Hperm : Permutation heroes (rev r)).
  { rewrite <- Permutation_rev. rewrite <- Hp. apply Permutation_rev. }
  assert (Hl : List.length (rev r) = List.length heroes).
  { symmetry. apply Permutation_length. exact Hperm. }
  exists (rev r). unfold naive_select_attackers, sorted.
  rewrite Hr. unfold bind, ret.
  rewrite firstn_all2 by lia.
  repeat split; auto.
  - apply StronglySorted_rev in Hs. exact Hs.
  - lia.
Qed.

Lemma naive_select_attackers_short_witness :
  exists team,
    naive_select_attackers
      [hero_of "a" 10; hero_of "b" 30; hero_of "c" 20] = inr team
    /\ Permutation [hero_of "a" 10; hero_of "b" 30; hero_of "c" 20] team
    /\ StronglySorted power_ge team
    /\ (List.length team < TEAM_SIZE)%nat.
Proof.
  apply (naive_select_attackers_short
           [hero_of "a" 10; hero_of "b" 30; hero_of "c" 20]).
  - intros h [<- | [<- | [<- | []]]]; discriminate.
  - unfold TEAM_SIZE; simpl; lia.
Defined.

(** ** Team features *)

Section NumpyFacts.
Variable dim : nat.

Lemma add_comm (a b : Numpy.ndarray dim) : Numpy.add a b = Numpy.add b a.
Proof.
  apply Vector.eq_nth_iff. intros p ? <-. unfold Numpy.add.
  rewrite !(Vector.nth_map2 _ _ _ p p p eq_refl eq_refl). lia.
Qed.

Lemma add_assoc (a b c : Numpy.ndarray dim) :
  Numpy.add (Numpy.add a b) c = Numpy.add a (Numpy.add b c).
Proof.
  apply Vector.eq_nth_iff. intros p ? <-. unfold Numpy.add.
  rewrite !(Vector.nth_map2 _ _ _ p p p eq_refl eq_refl). lia.
Qed.

Lemma add_zeros_r (a : Numpy.ndarray dim) :
  Numpy.add a (Vector.const 0 dim) = a.
Proof.
  apply Vector.eq_nth_iff. intros p ? <-. unfold Numpy.add.
  rewrite (Vector.nth_map2 _ _ _ p p p eq_refl eq_refl).
  rewrite Vector.const_nth. lia.
Qed.

(** The sum of a list of arrays, from the right and from zero. *)
Lemma fold_left_add (l : list (Numpy.ndarray dim)) (x : Numpy.ndarray dim) :
  fold_left (@Numpy.add dim) l x =
  Numpy.add x (fold_right (@Numpy.add dim) (Vector.const 0 dim) l).
Proof.
  revert x. induction l as [| y l IH]; intros x; simpl.
  - symmetry. apply add_zeros_r.
  - rewrite IH. apply add_assoc.
Qed.

Lemma fold_right_add_perm (l l' : list (Numpy.ndarray dim)) :
  Permutation l l' ->
  fold_right (@Numpy.add dim) (Vector.const 0 dim) l =
  fold_right (@Numpy.add dim) (Vector.const 0 dim) l'.
Proof.
  induction 1 as [| x l l' _ IH | x y l | l l' l'' _ IH1 _ IH2]; simpl.
  - reflexivity.
  - now rewrite IH.
  - rewrite <- !add_assoc. f_equal. apply add_comm.
  - now rewrite IH1.
Qed.

Lemma reduce_add_cons (x : Numpy.ndarray dim) (l : list (Numpy.ndarray dim)) :
  reduce (@Numpy.add dim) (x :: l) =
  inr (fold_right (@Numpy.add dim) (Vector.const 0 dim) (x :: l)).
Proof. unfold reduce, ret. now rewrite fold_left_add. Qed.
End NumpyFacts.

Section TeamFeatures.
Variable dim : nat.
Variable features : Hero -> Numpy.ndarray dim.

Lemma make_team_features_nonempty (heroes : list Hero) :
  heroes <> [] ->
  make_team_features features heroes =
  inr (fold_right (@Numpy.add dim) (Vector.const 0 dim)
         (List.map features heroes)).
Proof.
  destruct heroes as [| h heroes]; [congruence | intros _].
  unfold make_team_features. simpl List.map. apply reduce_add_cons.
Qed.

Lemma make_team_features_nil :
  make_team_features features [] = inl TypeError.
Proof. reflexivity. Qed.
End TeamFeatures.

(** C7: for a non-empty list of heroes and any reordering of it, the
    aggregation returns one and the same feature vector. *)
Theorem make_team_features_permutation :
  forall (dim : nat) (features : Hero -> Numpy.ndarray dim)
         (heroes heroes' : list Hero),
    heroes <> [] ->
    Permutation heroes heroes' ->
    exists v,
      make_team_features features heroes = inr v
      /\ make_team_features features heroes' = inr v.
Proof.
  intros dim features heroes heroes' Hne Hperm.
  assert (Hne' : heroes' <> []).
  { intros ->. apply Permutation_sym, Permutation_nil in Hperm. auto. }
  rewrite !make_team_features_nonempty by assumption.
  eexists. split; [reflexivity |]. f_equal.
  apply fold_right_add_perm. apply Permutation_map. now symmetry.
Qed.

Lemma make_team_features_permutation_witness :
  exists v,
    make_team_features features_demo
      [hero_of "a" 10; hero_of "b" 30; hero_of "c" 20] = inr v
    /\ make_team_features features_demo
         [hero_of "c" 20; hero_of "a" 10; hero_of "b" 30] = inr v.
Proof.
  apply (@make_team_features_permutation 2 features_demo
           [hero_of "a" 10; hero_of "b" 30; hero_of "c" 20]
           [hero_of "c" 20; hero_of "a" 10; hero_of "b" 30]).
  - discriminate.
  - apply Permutation_sym, (Permutation_cons_app [_; _] []). reflexivity.
Defined.

(** ** Combinations *)

Section CombinationsFacts.
Context {A : Type}.

Lemma subseq_nil_l (l : list A) : subseq [] l.
Proof. induction l; constructor; assumption. Qed.

Lemma subseq_length (s l : list A) :
  subseq s l -> (List.length s <= List.length l)%nat.
Proof. induction 1; simpl; lia. Qed.

Lemma subseq_In (s l : list A) (x : A) : subseq s l -> In x s -> In x l.
Proof.
  induction 1; simpl; intros Hin; auto.
  destruct Hin; auto.
Qed.

Lemma subseq_full (s l : list A) :
  subseq s l -> List.length s = List.length l -> s = l.
Proof.
  induction 1 as [| x s l H IH | x s l H IH]; simpl; intros Hlen.
  - reflexivity.
  - f_equal. apply IH. lia.
  - apply subseq_length in H. lia.
Qed.

Lemma subseq_refl (l : list A) : subseq l l.
Proof. induction l; constructor; assumption. Qed.

Lemma in_combinations (l : list A) (k : nat) (c : list A) :
  In c (combinations l k) <-> subseq c l /\ List.length c = k.
Proof.
  revert k c. induction l as [| x l IH]; intros k c.
  - destruct k; simpl.
    + split.
      * intros [<- | []]. split; [constructor | reflexivity].
      * intros [_ Hlen]. left. destruct c; [reflexivity | discriminate].
    + split; [intros [] |].
      intros [Hs Hlen]. inversion Hs; subst. discriminate.
  - destruct k; simpl.
    + split.
      * intros [<- | []]. split; [apply subseq_nil_l | reflexivity].
      * intros [_ Hlen]. left. destruct c; [reflexivity | discriminate].
    + rewrite in_app_iff, in_map_iff. split.
      * intros [(c' & <- & Hc') | Hc].
        -- apply IH in Hc'. destruct Hc' as [Hs Hlen].
           split; [constructor; assumption | simpl; congruence].
        -- apply IH in Hc. destruct Hc as [Hs Hlen].
           split; [constructor; assumption | assumption].
      * intros [Hs Hlen]. inversion Hs; subst.
        -- left. eexists. split; [reflexivity |]. apply IH.
           split; [assumption | simpl in Hlen; congruence].
        -- right. apply IH. split; assumption.
Qed.

Lemma combinations_too_many (l : list A) (k : nat) :
  (List.length l < k)%nat -> combinations l k = [].
Proof.
  revert k. induction l as [| x l IH]; intros k Hk.
  - destruct k; [simpl in Hk; lia | reflexivity].
  - destruct k; [lia |]. simpl in *.
    rewrite (IH k) by lia. rewrite (IH (S k)) by lia. reflexivity.
Qed.

Lemma combinations_all (l : list A) : combinations l (List.length l) = [l].
Proof.
  induction l as [| x l IH]; [reflexivity |].
  simpl. rewrite IH. rewrite combinations_too_many by lia. reflexivity.
Qed.

Lemma combinations_length (l : list A) (k : nat) :
  List.length (combinations l k) = binomial (List.length l) k.
Proof.
  revert k. induction l as [| x l IH]; intros k.
  - destruct k; reflexivity.
  - destruct k; [reflexivity |]. simpl.
    rewrite length_app, length_map, !IH. reflexivity.
Qed.

Lemma binomial_pos (n k : nat) : (k <= n)%nat -> (0 < binomial n k)%nat.
Proof.
  revert k. induction n as [| n IH]; intros k Hk.
  - destruct k; simpl; lia.
  - destruct k; simpl; [lia |].
    specialize (IH k ltac:(lia)). lia.
Qed.

Lemma NoDup_combinations (l : list A) (k : nat) :
  NoDup l -> NoDup (combinations l k).
Proof.
  revert k. induction l as [| x l IH]; intros k Hnd.
  - destruct k; simpl; repeat constructor. intros [].
  - destruct k; simpl; [repeat constructor; intros [] |].
    inversion Hnd as [| ? ? Hx Hnd']; subst.
    apply NoDup_app.
    + apply Finite.Injective_map_NoDup; [| apply IH; assumption].
      intros a b Hab. congruence.
    + apply IH; assumption.
    + intros c Hc1 Hc2. apply in_map_iff in Hc1.
      destruct Hc1 as (c' & <- & _). apply in_combinations in Hc2.
      apply Hx. eapply subseq_In; [apply Hc2 | left; reflexivity].
Qed.
End CombinationsFacts.

(** ** Single-team selection *)

Lemma mapM_total {A B} (f : A -> result B) (g : A -> B) (l : list A) :
  (forall a, In a l -> f a = inr (g a)) -> mapM f l = inr (List.map g l).
Proof.
  induction l as [| a l IH]; intros H; simpl; [reflexivity |].
  rewrite (H a) by (left; reflexivity). simpl.
  rewrite IH by (intros; apply H; right; assumption). reflexivity.
Qed.

Lemma mapM_in {A B} (f : A -> result B) (l : list A) (bs : list B) (b : B) :
  mapM f l = inr bs -> In b bs -> exists a, In a l /\ f a = inr b.
Proof.
  revert bs. induction l as [| a l IH]; intros bs H Hin; simpl in H.
  - inversion H; subst. destruct Hin.
  - destruct (f a) as [e | b'] eqn:Ea; simpl in H; [discriminate |].
    destruct (mapM f l) as [e | bs'] eqn:El; simpl in H; [discriminate |].
    inversion H; subst. destruct Hin as [-> | Hin].
    + exists a. split; [left; reflexivity | assumption].
    + destruct (IH bs' eq_refl Hin) as (a' & Ha' & Hf).
      exists a'. split; [right; assumption | assumption].
Qed.

Lemma argmax_from_lt (l : list Float64.float) (mp : Float64.float)
    (max_ind i : nat) :
  (max_ind < i)%nat ->
  (Numpy.argmax_from mp max_ind i l < i + List.length l)%nat.
Proof.
  revert mp max_ind i. induction l as [| x l IH]; intros mp max_ind i Hi; simpl.
  - lia.
  - destruct (negb (Float64.leb x mp)).
    + destruct (Float64.is_nan x); [lia |].
      specialize (IH x i (S i) ltac:(lia)). lia.
    + specialize (IH mp max_ind (S i) ltac:(lia)). lia.
Qed.

Lemma argmax_lt (y : list Float64.float) :
  y <> [] ->
  exists index, Numpy.argmax y = inr index /\ (index < List.length y)%nat.
Proof.
  destruct y as [| x l]; [congruence | intros _].
  simpl. eexists. split; [reflexivity |].
  destruct (Float64.is_nan x); [lia |].
  pose proof (@argmax_from_lt l x 0%nat 1%nat ltac:(lia)). lia.
Qed.

Lemma getitem_some {A} (l : list A) (i : nat) (a : A) :
  getitem l i = inr a <-> nth_error l i = Some a.
Proof.
  unfold getitem. destruct (nth_error l i); split; intros H;
    inversion H; reflexivity.
Qed.

Section SelectFacts.
Variable dim : nat.
Variable features : Hero -> Numpy.ndarray dim.
Variable model : Model dim.

Let total (heroes : list Hero) : Numpy.ndarray dim :=
  fold_right (@Numpy.add dim) (Vector.const 0 dim) (List.map features heroes).

Lemma team_rows (heroes : list Hero) :
  mapM (make_team_features features) (combinations heroes TEAM_SIZE) =
  inr (List.map total (combinations heroes TEAM_SIZE)).
Proof.
  apply mapM_total. intros c Hc. apply in_combinations in Hc.
  apply make_team_features_nonempty. destruct Hc as [_ Hlen].
  intros ->. discriminate.
Qed.

(** What a successful selection returns: one of the candidate teams,
    together with the model's score for that very team. *)
Lemma model_select_attackers_inr (heroes defenders attackers : list Hero)
    (p : Float64.float) :
  model_select_attackers features model heroes defenders = inr (attackers, p) ->
  In attackers (combinations heroes TEAM_SIZE)
  /\ win_probability features model attackers defenders = inr p.
Proof.
  unfold model_select_attackers. rewrite team_rows. simpl bind.
  destruct (make_team_features features defenders) as [e | d] eqn:Ed;
    [discriminate |].
  simpl bind. unfold Numpy.subtract_rows.
  destruct (combinations heroes TEAM_SIZE) as [| c cs] eqn:Ec;
    [discriminate |].
  rewrite <- Ec. clear Ec c cs.
  destruct (List.map total (combinations heroes TEAM_SIZE)) eqn:Em.
  { discriminate. }
  rewrite <- Em. clear Em. simpl bind.
  unfold predict_proba. rewrite !map_map.
  match goal with |- context [Numpy.argmax ?y] =>
    destruct (Numpy.argmax y) as [e | index] end; [discriminate |].
  simpl bind.
  destruct (getitem (combinations heroes TEAM_SIZE) index) as [e | a] eqn:Ea;
    [discriminate |].
  simpl bind. apply getitem_some in Ea.
  match goal with |- context [getitem ?y index] =>
    destruct (getitem y index) as [e | q] eqn:Eq end; [discriminate |].
  simpl. intros H. inversion H; subst. clear H.
  apply getitem_some in Eq. rewrite nth_error_map, Ea in Eq.
  simpl in Eq. inversion Eq; subst. clear Eq.
  assert (Hin : In attackers (combinations heroes TEAM_SIZE))
    by (eapply nth_error_In; eassumption).
  split; [exact Hin |].
  unfold win_probability. rewrite Ed.
  rewrite make_team_features_nonempty.
  - reflexivity.
  - apply in_combinations in Hin. destruct Hin as [_ Hlen].
    intros ->. discriminate.
Qed.

(** With enough heroes and at least one defender the selection succeeds. *)
Lemma model_select_attackers_total (heroes defenders : list Hero) :
  (TEAM_SIZE <= List.length heroes)%nat -> defenders <> [] ->
  exists attackers p,
    model_select_attackers features model heroes defenders
    = inr (attackers, p).
Proof.
  intros Hlen Hd.
  unfold model_select_attackers. rewrite team_rows. simpl bind.
  rewrite make_team_features_nonempty by assumption. simpl bind.
  assert (Hc : (0 < List.length (combinations heroes TEAM_SIZE))%nat).
  { rewrite combinations_length. apply binomial_pos. exact Hlen. }
  unfold Numpy.subtract_rows.
  destruct (List.map total (combinations heroes TEAM_SIZE)) eqn:Em.
  { apply (f_equal (@List.length _)) in Em. rewrite length_map in Em.
    simpl in Em. lia. }
  rewrite <- Em. clear Em. simpl bind.
  unfold predict_proba. rewrite !map_map.
  match goal with |- context [Numpy.argmax ?y] =>
    destruct (@argmax_lt y) as (index & -> & Hi) end.
  { intros E. apply (f_equal (@List.length _)) in E.
    rewrite length_map in E. simpl in E. lia. }
  rewrite length_map in Hi. simpl bind.
  destruct (nth_error (combinations heroes TEAM_SIZE) index) as [a |] eqn:Ea.
  2: { apply nth_error_None in Ea. lia. }
  unfold getitem at 1. rewrite Ea. simpl bind.
  unfold getitem. rewrite nth_error_map, Ea. simpl.
  eexists _, _. reflexivity.
Qed.
End SelectFacts.

(** C4: a pool of exactly [TEAM_SIZE] heroes is returned as it is, with
    the model's score on the difference between its features and the
    defenders' features. *)
Theorem model_select_attackers_exact_pool :
  forall (dim : nat) (features : Hero -> Numpy.ndarray dim) (model : Model dim)
         (heroes defenders : list Hero),
    List.length heroes = TEAM_SIZE ->
    defenders <> [] ->
    exists a d,
      make_team_features features heroes = inr a
      /\ make_team_features features defenders = inr d
      /\ model_select_attackers features model heroes defenders
         = inr (heroes, snd (row_proba (estimator model) (Numpy.subtract a d))).
Proof.
  intros dim features model heroes defenders Hlen Hd.
  assert (Hh : heroes <> []) by (intros ->; discriminate).
  rewrite !make_team_features_nonempty by assumption.
  eexists _, _. split; [reflexivity |]. split; [reflexivity |].
  unfold model_select_attackers. rewrite <- Hlen, combinations_all.
  simpl mapM. rewrite !make_team_features_nonempty by assumption.
  simpl. destruct (Float64.is_nan _); reflexivity.
Qed.

Lemma model_select_attackers_exact_pool_witness :
  exists a d,
    make_team_features features_demo pool5_demo = inr a
    /\ make_team_features features_demo defenders_demo = inr d
    /\ model_select_attackers features_demo model_demo pool5_demo defenders_demo
       = inr (pool5_demo,
              snd (row_proba (estimator model_demo) (Numpy.subtract a d))).
Proof.
  apply (@model_select_attackers_exact_pool 2 features_demo model_demo
           pool5_demo defenders_demo).
  - reflexivity.
  - discriminate.
Defined.

(** C5: with fewer than [TEAM_SIZE] heroes in the pool the selection
    fails: a [TypeError] when there is no defender either, and otherwise
    the [ValueError] of the empty batch of candidates. *)
Theorem model_select_attackers_short_pool :
  forall (dim : nat) (features : Hero -> Numpy.ndarray dim) (model : Model dim)
         (heroes defenders : list Hero),
    (List.length heroes < TEAM_SIZE)%nat ->
    raises (model_select_attackers features model heroes defenders)
    /\ model_select_attackers features model heroes defenders
       = inl (match defenders with [] => TypeError | _ :: _ => ValueError end).
Proof.
  intros dim features model heroes defenders Hlen.
  assert (E : model_select_attackers features model heroes defenders
              = inl (match defenders with
                     | [] => TypeError | _ :: _ => ValueError end)).
  { unfold model_select_attackers.
    rewrite combinations_too_many by exact Hlen. simpl mapM. simpl bind.
    destruct defenders as [| d ds]; [reflexivity |].
    rewrite make_team_features_nonempty by discriminate. reflexivity. }
  split; [eexists; exact E | exact E].
Qed.

Lemma model_select_attackers_short_pool_witness :
  raises (model_select_attackers features_demo model_demo
            [hero_of "a" 10; hero_of "b" 20] defenders_demo)
  /\ model_select_attackers features_demo model_demo
       [hero_of "a" 10; hero_of "b" 20] defenders_demo
     = inl ValueError.
Proof.
  apply (@model_select_attackers_short_pool 2 features_demo model_demo
           [hero_of "a" 10; hero_of "b" 20] defenders_demo).
  unfold TEAM_SIZE. simpl. lia.
Defined.

(** ** Items left after some identifiers were used *)

Lemma set_mem_In (k : string) (s : str_set) : set_mem k s = true <-> In k s.
Proof.
  unfold set_mem. rewrite existsb_exists. split.
  - intros (x & Hx & Heq). apply String.eqb_eq in Heq. now subst.
  - intros H. exists k. split; [assumption | apply String.eqb_refl].
Qed.

Lemma subseq_map {A B} (f : A -> B) (s l : list A) :
  subseq s l -> subseq (List.map f s) (List.map f l).
Proof. induction 1; simpl; constructor; assumption. Qed.

Lemma subseq_NoDup {A} (s l : list A) : subseq s l -> NoDup l -> NoDup s.
Proof.
  induction 1 as [| x s l H IH | x s l H IH]; intros Hnd.
  - constructor.
  - inversion Hnd; subst. constructor; [| auto].
    intros Hin. eapply subseq_In in Hin; eauto.
  - inversion Hnd; subst. auto.
Qed.

Lemma subseq_filter {A} (f : A -> bool) (s l : list A) :
  subseq s (List.filter f l) <->
  subseq s l /\ Forall (fun x => f x = true) s.
Proof.
  split.
  - revert s. induction l as [| x l IH]; intros s H; simpl in H.
    + inversion H; subst. split; constructor.
    + destruct (f x) eqn:Ex.
      * inversion H as [| x' s' l' Hs' | x' s' l' Hs']; subst.
        -- destruct (IH _ Hs') as [Hs Hf].
           split; constructor; assumption.
        -- destruct (IH _ Hs') as [Hs Hf].
           split; [constructor |]; assumption.
      * destruct (IH _ H) as [Hs Hf]. split; [constructor |]; assumption.
  - intros [Hs Hf]. induction Hs as [| x s l Hs IH | x s l Hs IH]; simpl.
    + constructor.
    + inversion Hf as [| ? ? Hx Hf']; subst. rewrite Hx. constructor. auto.
    + destruct (f x); [constructor |]; auto.
Qed.

Section LeftOver.
Variable T : Type.
Variable item_id : T -> string.

(** The items whose identifier is not in [used]. *)
Let left (used : str_set) (items : list T) : list T :=
  List.filter (fun item => negb (set_mem (item_id item) used)) items.

Lemma in_combinations_left (items : list T) (used : str_set) (k : nat)
    (c : list T) :
  In c (combinations (left used items) k) <->
  In c (combinations items k)
  /\ forall key, In key (List.map item_id c) -> ~ In key used.
Proof.
  rewrite !in_combinations. unfold left. rewrite subseq_filter.
  rewrite Forall_forall. split.
  - intros [[Hs Hf] Hlen]. repeat split; auto.
    intros key Hkey Hused. apply in_map_iff in Hkey.
    destruct Hkey as (x & <- & Hx). apply Hf in Hx.
    apply set_mem_In in Hused. rewrite Hused in Hx. discriminate.
  - intros [[Hs Hlen] Hf]. repeat split; auto.
    intros x Hx. destruct (set_mem (item_id x) used) eqn:E; [| reflexivity].
    apply set_mem_In in E. exfalso. apply (Hf (item_id x)); auto.
    apply in_map. assumption.
Qed.

Lemma length_left (items : list T) (used : str_set) :
  NoDup (List.map item_id items) ->
  NoDup used -> incl used (List.map item_id items) ->
  (List.length (left used items) + List.length used
   = List.length items)%nat.
Proof.
  intros Hnd Hu Hincl.
  pose proof (filter_length
                (fun item => negb (set_mem (item_id item) used)) items) as Hl.
  fold (left used items) in Hl. rewrite <- Hl. f_equal.
  set (taken := List.filter
                  (fun x => negb (negb (set_mem (item_id x) used))) items).
  rewrite <- (length_map item_id taken).
  apply Permutation_length. apply NoDup_Permutation; auto.
  - eapply subseq_NoDup; [| exact Hnd]. apply subseq_map.
    exact (proj1 (proj1 (subseq_filter
                           (fun x => negb (negb (set_mem (item_id x) used)))
                           taken items) (subseq_refl taken))).
  - intros key. unfold taken. rewrite in_map_iff. split.
    + intros Hkey. pose proof (Hincl _ Hkey) as Hin.
      apply in_map_iff in Hin. destruct Hin as (x & <- & Hx).
      exists x. split; [reflexivity |]. apply filter_In. split; [assumption |].
      rewrite negb_involutive. now apply set_mem_In.
    + intros (x & <- & Hx). apply filter_In in Hx. destruct Hx as [_ Hx].
      rewrite negb_involutive in Hx. now apply set_mem_In.
Qed.

(** A group drawn from the left-over items keeps the set of used
    identifiers duplicate-free and inside the pool. *)
Lemma used_grows (items : list T) (used : str_set) (k : nat) (c : list T) :
  NoDup (List.map item_id items) ->
  NoDup used -> incl used (List.map item_id items) ->
  In c (combinations (left used items) k) ->
  NoDup (used ++ List.map item_id c)
  /\ incl (used ++ List.map item_id c) (List.map item_id items)
  /\ List.length (used ++ List.map item_id c) = (List.length used + k)%nat.
Proof.
  intros Hnd Hu Hincl Hc. apply in_combinations_left in Hc.
  destruct Hc as [Hc Hfresh]. apply in_combinations in Hc.
  destruct Hc as [Hs Hlen].
  assert (Hsm := subseq_map item_id Hs).
  repeat split.
  - apply NoDup_app; auto.
    + eapply subseq_NoDup; eauto.
    + intros key Hk Hk'. exact (Hfresh key Hk' Hk).
  - apply incl_app; auto. intros key Hk. eapply subseq_In; eauto.
  - rewrite length_app, length_map. lia.
Qed.
End LeftOver.

(** ** Multi-team allocation *)

Lemma ids_disjoint_sym {T} (item_id : T -> string) (g1 g2 : list T) :
  ids_disjoint item_id g1 g2 -> ids_disjoint item_id g2 g1.
Proof. unfold ids_disjoint. intros H k H2 H1. exact (H k H1 H2). Qed.

Lemma max_from_in {A} (key : A -> Float64.float) (l : list A) (best : A) :
  max_from key best l = best \/ In (max_from key best l) l.
Proof.
  revert best. induction l as [| x l IH]; intros best; simpl.
  - left; reflexivity.
  - destruct (IH (if Float64.gtb (key x) (key best) then x else best))
      as [-> | Hin].
    + destruct (Float64.gtb (key x) (key best)); auto.
    + right; right; exact Hin.
Qed.

Lemma max_by_in {A} (key : A -> Float64.float) (l : list A) (a : A) :
  max_by key l = inr a -> In a l.
Proof.
  destruct l as [| x l]; simpl; [discriminate |].
  intros H. inversion H; subst. destruct (max_from_in key l x); auto.
Qed.

Lemma mapM_succeeds {A B} (f : A -> result B) (l : list A) :
  (forall a, In a l -> exists b, f a = inr b) ->
  exists bs, mapM f l = inr bs /\ List.length bs = List.length l.
Proof.
  induction l as [| a l IH]; intros H; simpl.
  - exists []. split; reflexivity.
  - destruct (H a) as (b & ->); [left; reflexivity |].
    destruct IH as (bs & -> & Hlen); [intros; apply H; right; assumption |].
    exists (b :: bs). simpl. split; [reflexivity | congruence].
Qed.

Lemma six_orders :
  permutations (range 3) =
  [[0; 1; 2]; [0; 2; 1]; [1; 0; 2]; [1; 2; 0]; [2; 0; 1]; [2; 1; 0]]%nat.
Proof. reflexivity. Qed.

(** Case analysis on a hypothesis [H : In order (permutations (range 3))]. *)
Ltac each_order H :=
  rewrite six_orders in H;
  destruct H as [<- | [<- | [<- | [<- | [<- | [<- | []]]]]]].

Section GrandFacts.
Variable dim : nat.
Variable features : Hero -> Numpy.ndarray dim.
Variable model : Model dim.
Variable heroes : list Hero.
Variable defenders_teams : list (list Hero).

Lemma fill_slot_inr (used : str_set) (teams : list (list Hero))
    (probs : list Float64.float) (i : nat) (st' : pass_state) :
  fill_slot features model heroes defenders_teams (used, teams, probs) i
  = inr st' ->
  exists d a q teams' probs',
    nth_error defenders_teams i = Some d
    /\ In a (combinations
               (List.filter (fun hero => negb (set_mem (id hero) used)) heroes)
               TEAM_SIZE)
    /\ win_probability features model a d = inr q
    /\ setitem probs i q = inr probs'
    /\ setitem teams i a = inr teams'
    /\ st' = (used ++ List.map id a, teams', probs').
Proof.
  unfold fill_slot.
  destruct (getitem defenders_teams i) as [e | d] eqn:Ed; [discriminate |].
  apply getitem_some in Ed. simpl bind.
  destruct (model_select_attackers features model _ d) as [e | [a q]] eqn:Ea;
    [discriminate |].
  apply model_select_attackers_inr in Ea. destruct Ea as [Hin Hq].
  simpl bind.
  destruct (setitem probs i q) as [e | probs'] eqn:Ep; [discriminate |].
  simpl bind.
  destruct (setitem teams i a) as [e | teams'] eqn:Et; [discriminate |].
  simpl. intros H. inversion H; subst.
  exists d, a, q, teams', probs'. repeat split; auto.
Qed.

Lemma fill_slot_total (used : str_set) (teams : list (list Hero))
    (probs : list Float64.float) (i : nat) (d : list Hero) :
  nth_error defenders_teams i = Some d -> d <> [] ->
  (TEAM_SIZE <=
   List.length (List.filter (fun hero => negb (set_mem (id hero) used)) heroes))%nat ->
  (i < List.length teams)%nat -> (i < List.length probs)%nat ->
  exists st', fill_slot features model heroes defenders_teams
                (used, teams, probs) i = inr st'.
Proof.
  intros Hd Hne Hlen Hi Hj. unfold fill_slot.
  apply getitem_some in Hd. rewrite Hd. simpl bind.
  destruct (@model_select_attackers_total dim features model _ d Hlen Hne)
    as (a & q & ->).
  simpl bind.
  assert (Hset : forall (A : Type) (l : list A) (n : nat) (v : A),
             (n < List.length l)%nat -> exists l', setitem l n v = inr l'
                                  /\ List.length l' = List.length l).
  { intros A l. induction l as [| x l IH]; intros n v Hn; simpl in *; [lia |].
    destruct n; [eexists; split; reflexivity |].
    destruct (IH n v ltac:(lia)) as (l' & -> & Hl').
    eexists; split; [reflexivity | simpl; congruence]. }
  destruct (Hset _ probs i q Hj) as (probs' & -> & _).
  destruct (Hset _ teams i a Hi) as (teams' & -> & _).
  simpl. eexists. reflexivity.
Qed.

(** A pass over three slots: what it leaves in the two tables, and how
    the three teams relate. *)
Lemma fill_slots_three (i1 i2 i3 : nat) (teams0 : list (list Hero))
    (probs0 : list Float64.float) (st : pass_state) :
  fill_slots features model heroes defenders_teams
    ([], teams0, probs0) [i1; i2; i3] = inr st ->
  exists d1 d2 d3 a1 a2 a3 q1 q2 q3 teams1 teams2 teams3 probs1 probs2 probs3,
    (nth_error defenders_teams i1 = Some d1
     /\ nth_error defenders_teams i2 = Some d2
     /\ nth_error defenders_teams i3 = Some d3)
    /\ (In a1 (combinations heroes TEAM_SIZE)
        /\ In a2 (combinations heroes TEAM_SIZE)
        /\ In a3 (combinations heroes TEAM_SIZE))
    /\ (win_probability features model a1 d1 = inr q1
        /\ win_probability features model a2 d2 = inr q2
        /\ win_probability features model a3 d3 = inr q3)
    /\ (ids_disjoint id a1 a2 /\ ids_disjoint id a1 a3
        /\ ids_disjoint id a2 a3)
    /\ (setitem teams0 i1 a1 = inr teams1
        /\ setitem teams1 i2 a2 = inr teams2
        /\ setitem teams2 i3 a3 = inr teams3)
    /\ (setitem probs0 i1 q1 = inr probs1
        /\ setitem probs1 i2 q2 = inr probs2
        /\ setitem probs2 i3 q3 = inr probs3)
    /\ st = (List.map id a1 ++ List.map id a2 ++ List.map id a3,
             teams3, probs3).
Proof.
  cbn [fill_slots].
  destruct (fill_slot _ _ _ _ _ i1) as [e | st1] eqn:E1; [discriminate |].
  apply fill_slot_inr in E1.
  destruct E1 as (d1 & a1 & q1 & t1 & p1 & Hd1 & Ha1 & Hq1 & Hp1 & Ht1 & ->).
  cbn [bind].
  destruct (fill_slot _ _ _ _ _ i2) as [e | st2] eqn:E2; [discriminate |].
  apply fill_slot_inr in E2.
  destruct E2 as (d2 & a2 & q2 & t2 & p2 & Hd2 & Ha2 & Hq2 & Hp2 & Ht2 & ->).
  cbn [bind].
  destruct (fill_slot _ _ _ _ _ i3) as [e | st3] eqn:E3; [discriminate |].
  apply fill_slot_inr in E3.
  destruct E3 as (d3 & a3 & q3 & t3 & p3 & Hd3 & Ha3 & Hq3 & Hp3 & Ht3 & ->).
  simpl. intros H. inversion H; subst. clear H.
  apply in_combinations_left in Ha1, Ha2, Ha3.
  destruct Ha1 as [Ha1 _], Ha2 as [Ha2 F2], Ha3 as [Ha3 F3].
  exists d1, d2, d3, a1, a2, a3, q1, q2, q3, t1, t2, t3, p1, p2, p3.
  repeat split; auto.
  - intros k H1 H2. apply (F2 k H2). simpl. exact H1.
  - intros k H1 H3. apply (F3 k H3). simpl. apply in_or_app. left. exact H1.
  - intros k H2 H3. apply (F3 k H3). simpl. apply in_or_app. right. exact H2.
  - simpl. rewrite <- app_assoc. reflexivity.
Qed.
End GrandFacts.

Section GrandSelection.
Variable dim : nat.
Variable features : Hero -> Numpy.ndarray dim.
Variable model : Model dim.
Variable heroes : list Hero.
Variable defenders_teams : list (list Hero).

(** What one ordering produces, read slot by slot. *)
Lemma try_order_inr (order : list nat) (teams : list (list Hero))
    (probs : list Float64.float) :
  In order (permutations (range 3)) ->
  try_order features model heroes defenders_teams order = inr (teams, probs) ->
  exists t0 t1 t2 d0 d1 d2 p0 p1 p2,
    teams = [t0; t1; t2] /\ probs = [p0; p1; p2]
    /\ (nth_error defenders_teams 0 = Some d0
        /\ nth_error defenders_teams 1 = Some d1
        /\ nth_error defenders_teams 2 = Some d2)
    /\ (win_probability features model t0 d0 = inr p0
        /\ win_probability features model t1 d1 = inr p1
        /\ win_probability features model t2 d2 = inr p2)
    /\ (ids_disjoint id t0 t1 /\ ids_disjoint id t0 t2
        /\ ids_disjoint id t1 t2)
    /\ (In t0 (combinations heroes TEAM_SIZE)
        /\ In t1 (combinations heroes TEAM_SIZE)
        /\ In t2 (combinations heroes TEAM_SIZE)).
Proof.
  unfold try_order. intros Horder H.
  destruct (fill_slots features model heroes defenders_teams _ order)
    as [e | [[used ts] ps]] eqn:E; [discriminate |].
  cbn [bind] in H. inversion H; subst ts ps; clear H.
  assert (S : forall g1 g2 : list Hero,
             ids_disjoint id g1 g2 -> ids_disjoint id g2 g1)
    by (intros; now apply ids_disjoint_sym).
  each_order Horder;
    apply fill_slots_three in E;
    destruct E as (d1 & d2 & d3 & a1 & a2 & a3 & q1 & q2 & q3
                   & ts1 & ts2 & ts3 & ps1 & ps2 & ps3
                   & (Hd1 & Hd2 & Hd3) & (Ha1 & Ha2 & Ha3)
                   & (Hq1 & Hq2 & Hq3) & (D12 & D13 & D23)
                   & (Ht1 & Ht2 & Ht3) & (Hp1 & Hp2 & Hp3) & Est);
    cbn in Ht1, Hp1; inversion Ht1; inversion Hp1; subst ts1 ps1;
    cbn in Ht2, Hp2; inversion Ht2; inversion Hp2; subst ts2 ps2;
    cbn in Ht3, Hp3; inversion Ht3; inversion Hp3; subst ts3 ps3;
    inversion Est; subst;
    do 9 eexists; (split; [reflexivity |]); (split; [reflexivity |]);
    repeat split; eauto.
Qed.

Lemma selection_of_order_inr (order : list nat) (teams : list (list Hero))
    (p : Float64.float) :
  In order (permutations (range 3)) ->
  selection_of_order features model heroes defenders_teams order
  = inr (teams, p) ->
  exists p0 p1 p2,
    try_order features model heroes defenders_teams order
    = inr (teams, [p0; p1; p2])
    /\ p = majority p0 p1 p2.
Proof.
  intros Horder. unfold selection_of_order.
  destruct (try_order features model heroes defenders_teams order)
    as [e | [ts ps]] eqn:E; [discriminate |].
  destruct (try_order_inr Horder E)
    as (t0 & t1 & t2 & d0 & d1 & d2 & p0 & p1 & p2 & -> & -> & _).
  cbn. intros H. inversion H; subst.
  exists p0, p1, p2. split; reflexivity.
Qed.

(** The pair returned is the one recorded for some ordering. *)
Lemma model_select_grand_attackers_inr (teams : list (list Hero))
    (p : Float64.float) :
  model_select_grand_attackers features model heroes defenders_teams
  = inr (teams, p) ->
  exists order,
    In order (permutations (range 3))
    /\ selection_of_order features model heroes defenders_teams order
       = inr (teams, p).
Proof.
  unfold model_select_grand_attackers.
  destruct (mapM _ (permutations (range 3))) as [e | selections] eqn:E;
    [discriminate |].
  cbn [bind]. intros H. apply max_by_in in H.
  destruct (@mapM_in _ _ _ _ _ _ E H) as (order & Hin & Hsel).
  exists order. split; assumption.
Qed.

(** With fifteen heroes of distinct identifiers and three non-empty
    defending teams every ordering goes through. *)
Lemma try_order_total (order : list nat) (d0 d1 d2 : list Hero) :
  NoDup (List.map id heroes) ->
  (N_GRAND_HEROES <= List.length heroes)%nat ->
  nth_error defenders_teams 0 = Some d0 -> d0 <> [] ->
  nth_error defenders_teams 1 = Some d1 -> d1 <> [] ->
  nth_error defenders_teams 2 = Some d2 -> d2 <> [] ->
  In order (permutations (range 3)) ->
  exists teams probs,
    try_order features model heroes defenders_teams order
    = inr (teams, probs).
Proof.
  intros Hnd Hlen Hd0 Hn0 Hd1 Hn1 Hd2 Hn2 Horder.
  assert (Hd : forall i, In i order ->
             exists d, nth_error defenders_teams i = Some d /\ d <> []).
  { pose proof Horder as Ho.
    each_order Ho; intros i [<- | [<- | [<- | []]]]; eauto. }
  assert (Hi : forall i, In i order -> (i < 3)%nat).
  { pose proof Horder as Ho.
    each_order Ho; intros i [<- | [<- | [<- | []]]]; lia. }
  assert (Hl : (List.length order <= 3)%nat).
  { pose proof Horder as Ho. each_order Ho; simpl; lia. }
  unfold try_order.
  assert (G : forall (ord : list nat) (used : str_set)
                    (teams : list (list Hero)) (probs : list Float64.float),
             (forall i, In i ord -> In i order) ->
             NoDup used -> incl used (List.map id heroes) ->
             (List.length used + TEAM_SIZE * List.length ord
              <= N_GRAND_HEROES)%nat ->
             List.length teams = 3%nat -> List.length probs = 3%nat ->
             exists st, fill_slots features model heroes defenders_teams
                          (used, teams, probs) ord = inr st).
  { induction ord as [| i ord IH];
      intros used teams probs Hsub Hu Hincl Hbudget Ht Hp.
    - eexists. reflexivity.
    - cbn [fill_slots].
      destruct (Hd i) as (d & Hdi & Hne); [apply Hsub; left; reflexivity |].
      pose proof (Hi i (Hsub i (or_introl eq_refl))) as Hi3.
      pose proof (length_left id heroes Hnd Hu Hincl) as Hleft.
      cbv beta in Hleft.
      simpl List.length in Hbudget.
      destruct (@fill_slot_total dim features model heroes defenders_teams
                  used teams probs i d Hdi Hne) as (st' & Est); try lia.
      rewrite Est. cbn [bind].
      apply fill_slot_inr in Est.
      destruct Est as (d' & a & q & teams' & probs' & _ & Ha & _
                       & Hp' & Ht' & ->).
      destruct (@used_grows _ id heroes used TEAM_SIZE a Hnd Hu Hincl Ha)
        as (Hu' & Hincl' & Hlen').
      assert (Hsetlen : forall (A : Type) (l l' : list A) n v,
                 setitem l n v = inr l' -> List.length l' = List.length l).
      { intros A l. induction l as [| x l IHl]; intros l' n v E;
          simpl in E; [discriminate |].
        destruct n; [inversion E; reflexivity |].
        destruct (setitem l n v) eqn:El; simpl in E; [discriminate |].
        inversion E; subst. simpl. f_equal. eapply IHl; eauto. }
      apply IH; auto.
      + intros j Hj. apply Hsub. right. exact Hj.
      + rewrite Hlen'. lia.
      + rewrite (Hsetlen _ _ _ _ _ Ht'). exact Ht.
      + rewrite (Hsetlen _ _ _ _ _ Hp'). exact Hp. }
  destruct (G order [] [[]; []; []]
              [Float64.zero; Float64.zero; Float64.zero]) as (st & Est);
    auto.
  - constructor.
  - intros k [].
  - unfold N_GRAND_HEROES, N_GRAND_TEAMS, TEAM_SIZE in *. simpl. lia.
  - rewrite Est. destruct st as [[used ts] ps]. cbn.
    eexists _, _. reflexivity.
Qed.

Lemma model_select_grand_attackers_total (d0 d1 d2 : list Hero) :
  NoDup (List.map id heroes) ->
  (N_GRAND_HEROES <= List.length heroes)%nat ->
  nth_error defenders_teams 0 = Some d0 -> d0 <> [] ->
  nth_error defenders_teams 1 = Some d1 -> d1 <> [] ->
  nth_error defenders_teams 2 = Some d2 -> d2 <> [] ->
  exists teams p,
    model_select_grand_attackers features model heroes defenders_teams
    = inr (teams, p).
Proof.
  intros Hnd Hlen Hd0 Hn0 Hd1 Hn1 Hd2 Hn2.
  unfold model_select_grand_attackers.
  destruct (@mapM_succeeds _ _
              (selection_of_order features model heroes defenders_teams)
              (permutations (range 3))) as (sels & -> & Hl).
  { intros order Horder.
    destruct (try_order_total Hnd Hlen Hd0 Hn0 Hd1 Hn1 Hd2 Hn2 Horder)
      as (teams & probs & E).
    destruct (try_order_inr Horder E)
      as (t0 & t1 & t2 & e0 & e1 & e2 & p0 & p1 & p2 & -> & -> & _).
    unfold selection_of_order. rewrite E. cbn. eexists. reflexivity. }
  cbn [bind]. destruct sels as [| [teams p] sels]; [discriminate |].
  simpl. destruct (max_from snd (teams, p) sels) as [teams' p'].
  exists teams', p'. reflexivity.
Qed.
End GrandSelection.

Lemma pool15_demo_distinct : NoDup (List.map id pool15_demo).
Proof.
  apply (NoDup_count_occ' string_dec). intros x Hx.
  repeat (destruct Hx as [<- | Hx]; [vm_compute; reflexivity |]).
  destruct Hx.
Qed.

(** C1: each of the six orderings records, next to its teams, the
    majority formula of its three slot probabilities; and the pair returned
    comes with three teams whose scores against the three defending teams
    reproduce the returned probability through that formula. *)
Theorem model_select_grand_attackers_joint_probability :
  forall (dim : nat) (features : Hero -> Numpy.ndarray dim) (model : Model dim)
         (heroes : list Hero) (defenders_teams : list (list Hero)),
    List.length (permutations (range 3)) = 6%nat
    /\ (forall order teams probs,
           In order (permutations (range 3)) ->
           try_order features model heroes defenders_teams order
           = inr (teams, probs) ->
           exists p1 p2 p3,
             probs = [p1; p2; p3]
             /\ selection_of_order features model heroes defenders_teams order
                = inr (teams, majority p1 p2 p3))
    /\ (forall teams p,
           model_select_grand_attackers features model heroes defenders_teams
           = inr (teams, p) ->
           exists t1 t2 t3 d1 d2 d3 p1 p2 p3,
             teams = [t1; t2; t3]
             /\ (nth_error defenders_teams 0 = Some d1
                 /\ nth_error defenders_teams 1 = Some d2
                 /\ nth_error defenders_teams 2 = Some d3)
             /\ (win_probability features model t1 d1 = inr p1
                 /\ win_probability features model t2 d2 = inr p2
                 /\ win_probability features model t3 d3 = inr p3)
             /\ p = majority p1 p2 p3).
Proof.
  intros dim features model heroes defenders_teams.
  split; [reflexivity |]. split.
  - intros order teams probs Horder E.
    destruct (try_order_inr _ _ _ _ Horder E)
      as (t0 & t1 & t2 & d0 & d1 & d2 & p0 & p1 & p2 & -> & -> & _).
    exists p0, p1, p2. split; [reflexivity |].
    unfold selection_of_order. rewrite E. reflexivity.
  - intros teams p H.
    apply model_select_grand_attackers_inr in H.
    destruct H as (order & Horder & Hsel).
    destruct (selection_of_order_inr _ _ _ _ Horder Hsel) as (p0 & p1 & p2 & E & ->).
    destruct (try_order_inr _ _ _ _ Horder E)
      as (t0 & t1 & t2 & d0 & d1 & d2 & q0 & q1 & q2 & -> & Hq & Hd & Hw & _).
    inversion Hq; subst.
    exists t0, t1, t2, d0, d1, d2, q0, q1, q2. repeat split; tauto.
Qed.

Lemma model_select_grand_attackers_joint_probability_witness :
  (exists teams p1 p2 p3,
      try_order features_demo model_demo pool15_demo defenders_teams_demo
        [2; 0; 1]%nat = inr (teams, [p1; p2; p3])
      /\ selection_of_order features_demo model_demo pool15_demo
           defenders_teams_demo [2; 0; 1]%nat
         = inr (teams, majority p1 p2 p3))
  /\ exists teams p,
       model_select_grand_attackers features_demo model_demo pool15_demo
         defenders_teams_demo = inr (teams, p)
       /\ exists t1 t2 t3 d1 d2 d3 p1 p2 p3,
            teams = [t1; t2; t3]
            /\ (nth_error defenders_teams_demo 0 = Some d1
                /\ nth_error defenders_teams_demo 1 = Some d2
                /\ nth_error defenders_teams_demo 2 = Some d3)
            /\ (win_probability features_demo model_demo t1 d1 = inr p1
                /\ win_probability features_demo model_demo t2 d2 = inr p2
                /\ win_probability features_demo model_demo t3 d3 = inr p3)
            /\ p = majority p1 p2 p3.
Proof.
  pose proof (@model_select_grand_attackers_joint_probability
                2 features_demo model_demo pool15_demo defenders_teams_demo)
    as (_ & Horders & Hreturned).
  split.
  - assert (Hin : In [2; 0; 1]%nat (permutations (range 3)))
      by (vm_compute; tauto).
    destruct (Horders [2; 0; 1]%nat _ _ Hin
                ltac:(vm_compute; reflexivity))
      as (p1 & p2 & p3 & Hp & Hsel).
    eexists _, p1, p2, p3. split; [| exact Hsel].
    rewrite <- Hp. vm_compute. reflexivity.
  - eexists _, _. split.
    + vm_compute. reflexivity.
    + apply Hreturned. vm_compute. reflexivity.
Defined.

(** C2: whatever the pool, the three teams returned share no identifier
    pairwise; and a pool of at least fifteen heroes with pairwise distinct
    identifiers, against three non-empty defending teams, does get three
    teams back. *)
Theorem model_select_grand_attackers_disjoint :
  forall (dim : nat) (features : Hero -> Numpy.ndarray dim) (model : Model dim)
         (heroes : list Hero) (defenders_teams : list (list Hero)),
    NoDup (List.map id heroes) ->
    (forall teams p,
        model_select_grand_attackers features model heroes defenders_teams
        = inr (teams, p) ->
        exists t1 t2 t3,
          teams = [t1; t2; t3]
          /\ ids_disjoint id t1 t2
          /\ ids_disjoint id t1 t3
          /\ ids_disjoint id t2 t3)
    /\ (forall d1 d2 d3,
           (N_GRAND_HEROES <= List.length heroes)%nat ->
           nth_error defenders_teams 0 = Some d1 -> d1 <> [] ->
           nth_error defenders_teams 1 = Some d2 -> d2 <> [] ->
           nth_error defenders_teams 2 = Some d3 -> d3 <> [] ->
           exists teams p,
             model_select_grand_attackers features model heroes defenders_teams
             = inr (teams, p)).
Proof.
  intros dim features model heroes defenders_teams Hnd. split.
  - intros teams p H.
    apply model_select_grand_attackers_inr in H.
    destruct H as (order & Horder & Hsel).
    destruct (selection_of_order_inr _ _ _ _ Horder Hsel) as (p0 & p1 & p2 & E & _).
    destruct (try_order_inr _ _ _ _ Horder E)
      as (t0 & t1 & t2 & d0 & d1 & d2 & q0 & q1 & q2
          & -> & _ & _ & _ & (D01 & D02 & D12) & _).
    exists t0, t1, t2. repeat split; assumption.
  - intros d1 d2 d3 Hlen H1 N1 H2 N2 H3 N3.
    eapply model_select_grand_attackers_total; eauto.
Qed.

Lemma model_select_grand_attackers_disjoint_witness :
  (exists teams p,
      model_select_grand_attackers features_demo model_demo pool15_demo
        defenders_teams_demo = inr (teams, p))
  /\ exists teams p,
       model_select_grand_attackers features_demo model_demo pool15_demo
         defenders_teams_demo = inr (teams, p)
       /\ exists t1 t2 t3,
            teams = [t1; t2; t3]
            /\ ids_disjoint id t1 t2
            /\ ids_disjoint id t1 t3
            /\ ids_disjoint id t2 t3.
Proof.
  pose proof (@model_select_grand_attackers_disjoint
                2 features_demo model_demo pool15_demo defenders_teams_demo
                pool15_demo_distinct) as (Hdisjoint & Hreturns).
  split.
  - eapply Hreturns;
      [unfold N_GRAND_HEROES, N_GRAND_TEAMS, TEAM_SIZE; simpl; lia
      | reflexivity | discriminate
      | reflexivity | discriminate
      | reflexivity | discriminate].
  - eexists _, _. split.
    + vm_compute. reflexivity.
    + eapply Hdisjoint. vm_compute. reflexivity.
Defined.

(** ** The enumerator of disjoint groups *)

Lemma NoDup_app_disjoint {A} (l1 l2 : list A) (x : A) :
  NoDup (l1 ++ l2) -> In x l1 -> ~ In x l2.
Proof.
  induction l1 as [| a l1 IH]; simpl; intros Hnd Hin; [destruct Hin |].
  inversion Hnd as [| ? ? Ha Hnd']; subst. destruct Hin as [-> | Hin].
  - intros H2. apply Ha. apply in_or_app. right. exact H2.
  - apply IH; assumption.
Qed.

Lemma NoDup_flat_map {A B} (f : A -> list B) (l : list A) :
  NoDup l ->
  (forall a, In a l -> NoDup (f a)) ->
  (forall a b x, In a l -> In b l -> In x (f a) -> In x (f b) -> a = b) ->
  NoDup (flat_map f l).
Proof.
  induction 1 as [| a l Ha Hnd IH]; intros Hf Hinj; simpl.
  - constructor.
  - apply NoDup_app.
    + apply Hf. left; reflexivity.
    + apply IH.
      * intros b Hb. apply Hf. right; exact Hb.
      * intros b c x Hb Hc. apply Hinj; right; assumption.
    + intros x Hx Hx'. apply in_flat_map in Hx'.
      destruct Hx' as (b & Hb & Hxb).
      assert (a = b) by (apply (Hinj a b x); auto; [left | right]; auto).
      subst. contradiction.
Qed.

Section ChooseMultipleFacts.
Variable T : Type.
Variable item_id : T -> string.
Variable items : list T.
Variable k : nat.
Hypothesis items_distinct : NoDup (List.map item_id items).

Let ids (g : list T) : list string := List.map item_id g.

Lemma ids_snoc (head : list (list T)) (tail : list T) :
  ids (List.concat (head ++ [tail])) = ids (List.concat head) ++ ids tail.
Proof.
  unfold ids. rewrite concat_app, map_app. simpl. now rewrite app_nil_r.
Qed.

Lemma in_choose_multiple (n : nat) (t : list (list T)) :
  In t (choose_multiple item_id items n k) <->
  disjoint_tuple item_id items n k t.
Proof.
  revert t. induction n as [| n IH]; intros t; unfold disjoint_tuple.
  - simpl. split.
    + intros [<- | []]. repeat split; constructor.
    + intros (Hlen & _). left. destruct t; [reflexivity | discriminate].
  - cbn [choose_multiple]. rewrite in_flat_map. split.
    + intros (head & Hhead & Ht). apply in_map_iff in Ht.
      destruct Ht as (tail & <- & Htail).
      apply IH in Hhead. destruct Hhead as (Hlen & Hall & Hnd).
      apply in_combinations_left in Htail. destruct Htail as [Htail Hfresh].
      repeat split.
      * rewrite length_app. simpl. lia.
      * apply Forall_app. split; [exact Hall | repeat constructor; exact Htail].
      * fold (ids (List.concat (head ++ [tail]))). rewrite ids_snoc.
        apply NoDup_app; [exact Hnd | |].
        -- apply in_combinations in Htail.
           eapply subseq_NoDup; [| exact items_distinct].
           apply subseq_map. apply Htail.
        -- intros key Hk Hk'. exact (Hfresh key Hk' Hk).
    + intros (Hlen & Hall & Hnd).
      destruct t as [| g t'] using rev_ind; [discriminate |]. clear IHt'.
      rename t' into head. rename g into tail.
      rewrite length_app in Hlen. simpl in Hlen.
      apply Forall_app in Hall. destruct Hall as [Hall Htail].
      inversion Htail as [| ? ? Htail' _]; subst.
      fold (ids (List.concat (head ++ [tail]))) in Hnd. rewrite ids_snoc in Hnd.
      exists head. split.
      * apply IH. repeat split; [lia | exact Hall |].
        eapply NoDup_app_remove_r. exact Hnd.
      * apply in_map_iff. exists tail. split; [reflexivity |].
        apply in_combinations_left. split; [exact Htail' |].
        intros key Hk Hk'. exact (@NoDup_app_disjoint _ _ _ _ Hnd Hk' Hk).
Qed.

Lemma NoDup_items : NoDup items.
Proof. eapply NoDup_map_inv. exact items_distinct. Qed.

Lemma NoDup_choose_multiple (n : nat) :
  NoDup (choose_multiple item_id items n k).
Proof.
  induction n as [| n IH]; simpl.
  - repeat constructor. intros [].
  - apply NoDup_flat_map; [exact IH | |].
    + intros head _. apply Finite.Injective_map_NoDup.
      * intros a b Hab. apply app_inv_head in Hab. congruence.
      * apply NoDup_combinations. apply NoDup_filter. exact NoDup_items.
    + intros h1 h2 t _ _ H1 H2.
      apply in_map_iff in H1, H2.
      destruct H1 as (t1 & <- & _), H2 as (t2 & E & _).
      apply app_inj_tail in E. symmetry. apply E.
Qed.

Lemma used_of_tuple (n : nat) (t : list (list T)) :
  disjoint_tuple item_id items n k t ->
  incl (ids (List.concat t)) (ids items)
  /\ List.length (ids (List.concat t)) = (n * k)%nat.
Proof.
  intros (Hlen & Hall & _). subst n.
  induction Hall as [| g t Hg Hall IH]; simpl.
  - split; [intros ? [] | reflexivity].
  - destruct IH as [Hincl Hl]. apply in_combinations in Hg.
    destruct Hg as [Hs Hk]. unfold ids in *.
    rewrite map_app, length_app. split.
    + apply incl_app; [| exact Hincl].
      intros key Hkey. eapply subseq_In; [| exact Hkey].
      apply subseq_map. exact Hs.
    + rewrite Hl, length_map, Hk. reflexivity.
Qed.

Lemma choose_multiple_length (n : nat) :
  List.length (choose_multiple item_id items n k)
  = tuples_count (List.length items) n k.
Proof.
  induction n as [| n IH]; [reflexivity |].
  cbn [choose_multiple tuples_count]. rewrite <- IH.
  apply flat_map_constant_length. intros head Hhead.
  apply in_choose_multiple in Hhead.
  destruct (used_of_tuple Hhead) as [Hincl Hl].
  destruct Hhead as (_ & _ & Hnd).
  rewrite length_map, combinations_length. f_equal.
  pose proof (length_left item_id items items_distinct Hnd Hincl) as Hleft.
  cbv beta in Hleft. unfold ids in Hl. rewrite Hl in Hleft. lia.
Qed.
End ChooseMultipleFacts.

(** C6: over fifteen items with pairwise distinct identifiers, every tuple
    yielded consists of three 5-combinations of the pool that share no
    identifier; every such tuple sits at exactly one place of the
    enumeration; and the enumeration has C(15,5) * C(10,5) * C(5,5), that
    is 756756, tuples. *)
Theorem choose_multiple_three_by_five :
  forall (T : Type) (item_id : T -> string) (items : list T),
    List.length items = 15%nat ->
    NoDup (List.map item_id items) ->
    (forall t,
        In t (choose_multiple item_id items 3 5) ->
        exists g1 g2 g3,
          t = [g1; g2; g3]
          /\ (In g1 (combinations items 5) /\ In g2 (combinations items 5)
              /\ In g3 (combinations items 5))
          /\ (List.length g1 = 5%nat /\ List.length g2 = 5%nat
              /\ List.length g3 = 5%nat)
          /\ (ids_disjoint item_id g1 g2 /\ ids_disjoint item_id g1 g3
              /\ ids_disjoint item_id g2 g3))
    /\ (forall g1 g2 g3,
           In g1 (combinations items 5) -> In g2 (combinations items 5) ->
           In g3 (combinations items 5) ->
           ids_disjoint item_id g1 g2 -> ids_disjoint item_id g1 g3 ->
           ids_disjoint item_id g2 g3 ->
           exists before after,
             choose_multiple item_id items 3 5
             = before ++ [g1; g2; g3] :: after
             /\ ~ In [g1; g2; g3] before
             /\ ~ In [g1; g2; g3] after)
    /\ List.length (choose_multiple item_id items 3 5)
       = (binomial 15 5 * binomial 10 5 * binomial 5 5)%nat
    /\ Z.of_nat (List.length (choose_multiple item_id items 3 5)) = 756756.
Proof.
  intros T item_id items Hlen Hnd.
  assert (Hcount : List.length (choose_multiple item_id items 3 5)
                   = (binomial 15 5 * binomial 10 5 * binomial 5 5)%nat).
  { rewrite (@choose_multiple_length T item_id items 5%nat Hnd 3%nat), Hlen.
    cbn [tuples_count]. rewrite Nat.mul_1_l. reflexivity. }
  split; [| split; [| split]].
  - intros t Ht. apply (@in_choose_multiple T item_id items 5%nat Hnd 3%nat) in Ht.
    destruct Ht as (Hl & Hall & Hd).
    destruct t as [| g1 [| g2 [| g3 [| g4 t]]]]; try discriminate.
    inversion Hall as [| ? ? H1 Hall1]; subst.
    inversion Hall1 as [| ? ? H2 Hall2]; subst.
    inversion Hall2 as [| ? ? H3 _]; subst.
    exists g1, g2, g3. split; [reflexivity |]. split; [auto |].
    split; [repeat split; eapply in_combinations; eassumption |].
    simpl in Hd. rewrite app_nil_r, !map_app in Hd.
    repeat split; intros key Ha Hb.
    + eapply (@NoDup_app_disjoint _ _ _ _ Hd); [exact Ha |].
      apply in_or_app. left. exact Hb.
    + eapply (@NoDup_app_disjoint _ _ _ _ Hd); [exact Ha |].
      apply in_or_app. right. exact Hb.
    + apply NoDup_app_remove_l in Hd.
      eapply (@NoDup_app_disjoint _ _ _ _ Hd); eassumption.
  - intros g1 g2 g3 H1 H2 H3 D12 D13 D23.
    assert (Hin : In [g1; g2; g3] (choose_multiple item_id items 3 5)).
    { apply (@in_choose_multiple T item_id items 5%nat Hnd 3%nat). repeat split.
      - repeat constructor; assumption.
      - assert (Hg : forall g, In g (combinations items 5) ->
                               NoDup (List.map item_id g)).
        { intros g Hg. apply in_combinations in Hg.
          eapply subseq_NoDup; [| exact Hnd]. apply subseq_map. apply Hg. }
        simpl. rewrite app_nil_r, !map_app.
        apply NoDup_app; [auto | |].
        + apply NoDup_app; auto.
        + intros key Ha Hb. apply in_app_or in Hb.
          destruct Hb as [Hb | Hb]; [exact (D12 key Ha Hb) | exact (D13 key Ha Hb)]. }
    pose proof (@NoDup_choose_multiple T item_id items 5%nat Hnd 3%nat) as Hyields.
    destruct (in_split _ _ Hin) as (before & after & E).
    exists before, after. rewrite E in Hyields |- *.
    apply NoDup_remove_2 in Hyields.
    repeat split; intros Hx; apply Hyields; apply in_or_app; auto.
  - exact Hcount.
  - rewrite Hcount, !Nat2Z.inj_mul. vm_compute. reflexivity.
Qed.

Lemma choose_multiple_three_by_five_witness :
  List.length pool15_demo = 15%nat
  /\ Z.of_nat (List.length (choose_multiple id pool15_demo 3 5)) = 756756.
Proof.
  split; [reflexivity |].
  apply (@choose_multiple_three_by_five Hero id pool15_demo eq_refl
           pool15_demo_distinct).
Defined.

(** * Further properties *)

(** ** The order of binary64 numbers *)

Lemma leb_trans (a b c : Float64.float) :
  Float64.leb a b = true -> Float64.leb b c = true -> Float64.leb a c = true.
Proof.
  unfold Float64.leb, SFleb, SFcompare.
  destruct a as [sa | sa | | sa ma ea], b as [sb | sb | | sb mb eb],
    c as [sc | sc | | sc mc ec];
    try destruct sa; try destruct sb; try destruct sc;
    try reflexivity; try discriminate;
    change (Pos.compare_cont Eq) with Pos.compare;
    repeat match goal with
           | |- context [Z.compare ?x ?y] =>
               destruct (Z.compare_spec x y); subst
           | |- context [Pos.compare ?x ?y] =>
               destruct (Pos.compare_spec x y); subst
           end;
    simpl; try reflexivity; try discriminate; intros; lia.
Qed.

Lemma gtb_not_leb (a b : Float64.float) :
  Float64.is_nan a = false -> Float64.is_nan b = false ->
  Float64.gtb a b = negb (Float64.leb a b).
Proof.
  unfold Float64.gtb, Float64.leb, SFltb, SFleb, SFcompare, Float64.is_nan.
  destruct a as [sa | sa | | sa ma ea], b as [sb | sb | | sb mb eb];
    try destruct sa; try destruct sb;
    try reflexivity; try discriminate; intros _ _;
    change (Pos.compare_cont Eq) with Pos.compare;
    rewrite (Z.compare_antisym ea eb), (Pos.compare_antisym ma mb);
    destruct (Z.compare ea eb); simpl; try reflexivity;
    destruct (Pos.compare ma mb); reflexivity.
Qed.

Lemma leb_refl (a : Float64.float) :
  Float64.is_nan a = false -> Float64.leb a a = true.
Proof.
  unfold Float64.leb, SFleb, SFcompare, Float64.is_nan.
  destruct a as [sa | sa | | sa ma ea]; try destruct sa;
    try reflexivity; try discriminate; intros _;
    change (Pos.compare_cont Eq) with Pos.compare;
    rewrite Z.compare_refl, Pos.compare_refl; reflexivity.
Qed.

(** ** [argmax] and [max] pick the first maximum *)

(** [v] at position [i] is a first maximum of [y]. *)
Lemma argmax_from_first_max (l pre : list Float64.float)
    (mp : Float64.float) (max_ind : nat) :
  no_nan (pre ++ l) ->
  nth_error pre max_ind = Some mp ->
  (forall w, In w pre -> Float64.leb w mp = true) ->
  (forall j w, (j < max_ind)%nat -> nth_error pre j = Some w ->
               Float64.leb mp w = false) ->
  exists v,
    nth_error (pre ++ l)
      (Numpy.argmax_from mp max_ind (List.length pre) l) = Some v
    /\ (forall w, In w (pre ++ l) -> Float64.leb w v = true)
    /\ (forall j w,
           (j < Numpy.argmax_from mp max_ind (List.length pre) l)%nat ->
           nth_error (pre ++ l) j = Some w -> Float64.leb v w = false).
Proof.
  revert pre mp max_ind. induction l as [| x l IH];
    intros pre mp max_ind Hnan Hmp Hle Hlt; simpl.
  - rewrite app_nil_r. exists mp. repeat split; auto.
  - assert (Hx : Float64.is_nan x = false)
      by (apply Hnan; apply in_or_app; right; left; reflexivity).
    assert (Hm : Float64.is_nan mp = false)
      by (apply Hnan; apply in_or_app; left; eapply nth_error_In; eauto).
    assert (Hpre : List.length (pre ++ [x]) = S (List.length pre))
      by (rewrite length_app; simpl; lia).
    assert (Happ : (pre ++ [x]) ++ l = pre ++ x :: l)
      by (rewrite <- app_assoc; reflexivity).
    destruct (Float64.leb x mp) eqn:Exm; simpl.
    + specialize (IH (pre ++ [x]) mp max_ind).
      rewrite Hpre, Happ in IH. apply IH; auto.
      * rewrite nth_error_app1; [exact Hmp |].
        apply nth_error_Some. congruence.
      * intros w Hw. apply in_app_or in Hw.
        destruct Hw as [Hw | [<- | []]]; auto.
      * intros j w Hj Hw. apply (Hlt j w Hj).
        assert (max_ind < List.length pre)%nat
          by (apply nth_error_Some; congruence).
        rewrite nth_error_app1 in Hw by lia. exact Hw.
    + rewrite Hx.
      assert (Hmx : Float64.leb mp x = true).
      { pose proof (gtb_not_leb x mp Hx Hm) as G. rewrite Exm in G. simpl in G.
        pose proof (gtb_not_leb mp x Hm Hx) as G'.
        unfold Float64.gtb, Float64.leb, SFltb, SFleb in *.
        destruct (SFcompare mp x) as [[| |] |] eqn:E1; try reflexivity.
        - destruct (SFcompare x mp) as [[| |] |]; discriminate.
        - destruct (SFcompare x mp) as [[| |] |]; discriminate. }
      specialize (IH (pre ++ [x]) x (List.length pre)).
      rewrite Hpre, Happ in IH. apply IH; auto.
      * rewrite nth_error_app2 by lia. rewrite Nat.sub_diag. reflexivity.
      * intros w Hw. apply in_app_or in Hw.
        destruct Hw as [Hw | [<- | []]].
        -- apply (leb_trans w mp x); [apply Hle; exact Hw | exact Hmx].
        -- apply leb_refl. exact Hx.
      * intros j w Hj Hw. rewrite nth_error_app1 in Hw by lia.
        destruct (Float64.leb x w) eqn:Exw; [| reflexivity].
        assert (Float64.leb x mp = true); [| congruence].
        apply (leb_trans x w mp); [exact Exw |]. apply Hle.
        eapply nth_error_In; eauto.
Qed.

Lemma argmax_first_max (y : list Float64.float) (index : nat) :
  no_nan y ->
  Numpy.argmax y = inr index ->
  exists v,
    nth_error y index = Some v
    /\ (forall w, In w y -> Float64.leb w v = true)
    /\ (forall j w, (j < index)%nat -> nth_error y j = Some w ->
                    Float64.leb v w = false).
Proof.
  destruct y as [| x l]; simpl; [discriminate |].
  intros Hnan H. inversion H; subst; clear H.
  rewrite (Hnan x) by (left; reflexivity).
  destruct (@argmax_from_first_max l [x] x 0%nat) as (v & Hv & Hall & Hfirst).
  - exact Hnan.
  - reflexivity.
  - intros w [<- | []]. apply leb_refl. apply Hnan. left; reflexivity.
  - intros j w Hj. lia.
  - exists v. auto.
Qed.

(** Python's [max]: the result is an element, no element has a greater
    key, and every element before it has a smaller key. *)
Lemma max_from_first_max {A} (key : A -> Float64.float) (l pre : list A)
    (best : A) :
  no_nan (List.map key (pre ++ l)) ->
  In best pre ->
  (forall a, In a pre -> Float64.leb (key a) (key best) = true) ->
  In (max_from key best l) (pre ++ l)
  /\ forall a, In a (pre ++ l) ->
               Float64.leb (key a) (key (max_from key best l)) = true.
Proof.
  revert pre best. induction l as [| x l IH]; intros pre best Hnan Hb Hle; simpl.
  - rewrite app_nil_r. auto.
  - assert (Happ : (pre ++ [x]) ++ l = pre ++ x :: l)
      by (rewrite <- app_assoc; reflexivity).
    assert (Hx : Float64.is_nan (key x) = false).
    { apply Hnan. apply in_map. apply in_or_app. right; left; reflexivity. }
    assert (Hbn : Float64.is_nan (key best) = false).
    { apply Hnan. apply in_map. apply in_or_app. left; exact Hb. }
    rewrite (gtb_not_leb (key x) (key best) Hx Hbn).
    destruct (Float64.leb (key x) (key best)) eqn:Exb; simpl.
    + specialize (IH (pre ++ [x]) best). rewrite Happ in IH. apply IH; auto.
      * apply in_or_app. left; exact Hb.
      * intros a Ha. apply in_app_or in Ha.
        destruct Ha as [Ha | [<- | []]]; auto.
    + assert (Hbx : Float64.leb (key best) (key x) = true).
      { pose proof (gtb_not_leb (key x) (key best) Hx Hbn) as G. rewrite Exb in G. simpl in G.
        unfold Float64.gtb, Float64.leb, SFltb, SFleb in *.
        destruct (SFcompare (key best) (key x)) as [[| |] |];
          try reflexivity; discriminate. }
      specialize (IH (pre ++ [x]) x). rewrite Happ in IH. apply IH; auto.
      * apply in_or_app. right; left; reflexivity.
      * intros a Ha. apply in_app_or in Ha.
        destruct Ha as [Ha | [<- | []]].
        -- apply (leb_trans (key a) (key best) (key x)); [apply Hle; exact Ha | exact Hbx].
        -- apply leb_refl. exact Hx.
Qed.

Lemma max_by_greatest {A} (key : A -> Float64.float) (l : list A) (a : A) :
  no_nan (List.map key l) ->
  max_by key l = inr a ->
  In a l /\ forall b, In b l -> Float64.leb (key b) (key a) = true.
Proof.
  destruct l as [| x l]; simpl; [discriminate |].
  intros Hnan H. inversion H; subst; clear H.
  apply (@max_from_first_max A key l [x] x); auto.
  - left; reflexivity.
  - intros b [<- | []]. apply leb_refl. apply Hnan. left; reflexivity.
Qed.

(** ** Single-team selection: which team is chosen *)

Section SelectBest.
Variable dim : nat.
Variable features : Hero -> Numpy.ndarray dim.
Variable model : Model dim.

Lemma win_probability_inr (attackers defenders : list Hero)
    (d : Numpy.ndarray dim) :
  attackers <> [] ->
  make_team_features features defenders = inr d ->
  win_probability features model attackers defenders =
  inr (snd (row_proba (estimator model)
              (Numpy.subtract
                 (fold_right (@Numpy.add dim) (Vector.const 0 dim)
                    (List.map features attackers)) d))).
Proof.
  intros Ha Hd. unfold win_probability.
  rewrite make_team_features_nonempty by assumption. rewrite Hd. reflexivity.
Qed.

(** The selection, read as an [argmax] over the scores of the candidates. *)
Lemma model_select_attackers_argmax (heroes defenders attackers : list Hero)
    (p : Float64.float) :
  model_select_attackers features model heroes defenders = inr (attackers, p) ->
  exists (score : list Hero -> Float64.float) (index : nat),
    (forall c, In c (combinations heroes TEAM_SIZE) ->
               win_probability features model c defenders = inr (score c))
    /\ Numpy.argmax (List.map score (combinations heroes TEAM_SIZE)) = inr index
    /\ nth_error (combinations heroes TEAM_SIZE) index = Some attackers
    /\ p = score attackers.
Proof.
  unfold model_select_attackers. rewrite team_rows. simpl bind.
  destruct (make_team_features features defenders) as [e | d] eqn:Ed;
    [discriminate |].
  simpl bind. unfold Numpy.subtract_rows.
  destruct (List.map _ (combinations heroes TEAM_SIZE)) eqn:Em;
    [discriminate |].
  rewrite <- Em. clear Em. simpl bind.
  unfold predict_proba. rewrite !map_map.
  match goal with |- context [Numpy.argmax (List.map ?f _)] =>
    set (score := f) end.
  destruct (Numpy.argmax _) as [e | index] eqn:Ei; [discriminate |].
  simpl bind.
  destruct (getitem (combinations heroes TEAM_SIZE) index) as [e | a] eqn:Ea;
    [discriminate |].
  simpl bind. apply getitem_some in Ea.
  destruct (getitem _ index) as [e | q] eqn:Eq; [discriminate |].
  simpl. intros H. inversion H; subst; clear H.
  apply getitem_some in Eq. rewrite nth_error_map, Ea in Eq.
  simpl in Eq. inversion Eq; subst; clear Eq.
  exists score, index. repeat split; auto.
  intros c Hc. apply in_combinations in Hc. destruct Hc as [_ Hlen].
  unfold score. apply win_probability_inr; [| exact Ed].
  intros ->. discriminate.
Qed.
End SelectBest.

(** X1: a successful single-team selection returns exactly [TEAM_SIZE]
    heroes, taken from the pool in pool order, together with the model's
    score for that team against the defenders. *)
Theorem model_select_attackers_team_of_five :
  forall (dim : nat) (features : Hero -> Numpy.ndarray dim) (model : Model dim)
         (heroes defenders attackers : list Hero) (p : Float64.float),
    model_select_attackers features model heroes defenders
    = inr (attackers, p) ->
    List.length attackers = TEAM_SIZE
    /\ subseq attackers heroes
    /\ (forall h, In h attackers -> In h heroes)
    /\ win_probability features model attackers defenders = inr p.
Proof.
  intros dim features model heroes defenders attackers p H.
  apply model_select_attackers_inr in H. destruct H as [Hin Hp].
  apply in_combinations in Hin. destruct Hin as [Hs Hlen].
  repeat split; auto. intros h Hh. eapply subseq_In; eauto.
Qed.

Lemma model_select_attackers_team_of_five_witness :
  exists attackers p,
    model_select_attackers features_demo model_demo pool15_demo defenders_demo
    = inr (attackers, p)
    /\ List.length attackers = TEAM_SIZE
    /\ subseq attackers pool15_demo.
Proof.
  eexists _, _. split; [vm_compute; reflexivity |].
  pose proof (@model_select_attackers_team_of_five 2 features_demo model_demo
                pool15_demo defenders_demo _ _
                ltac:(vm_compute; reflexivity)) as (Hl & Hs & _).
  split; [exact Hl | exact Hs].
Defined.

(** X2: when no candidate team gets a NaN score, the selected team has a
    maximal score among all [TEAM_SIZE]-combinations of the pool, and it is
    the first such team in the order of enumeration: every earlier
    candidate scores strictly less. *)
Theorem model_select_attackers_first_best :
  forall (dim : nat) (features : Hero -> Numpy.ndarray dim) (model : Model dim)
         (heroes defenders attackers : list Hero) (p : Float64.float),
    model_select_attackers features model heroes defenders
    = inr (attackers, p) ->
    (forall c q, In c (combinations heroes TEAM_SIZE) ->
                 win_probability features model c defenders = inr q ->
                 Float64.is_nan q = false) ->
    (forall c q, In c (combinations heroes TEAM_SIZE) ->
                 win_probability features model c defenders = inr q ->
                 Float64.leb q p = true)
    /\ exists earlier later,
         combinations heroes TEAM_SIZE = earlier ++ attackers :: later
         /\ forall c q, In c earlier ->
                        win_probability features model c defenders = inr q ->
                        Float64.leb p q = false.
Proof.
  intros dim features model heroes defenders attackers p H Hnan.
  destruct (model_select_attackers_argmax _ _ _ _ H)
    as (score & index & Hscore & Hi & Ha & ->).
  assert (Hy : no_nan (List.map score (combinations heroes TEAM_SIZE))).
  { intros v Hv. apply in_map_iff in Hv. destruct Hv as (c & <- & Hc).
    apply (Hnan c); [exact Hc | apply Hscore; exact Hc]. }
  destruct (argmax_first_max Hy Hi) as (v & Hv & Hall & Hfirst).
  rewrite nth_error_map, Ha in Hv. simpl in Hv. inversion Hv; subst v.
  split.
  - intros c q Hc Hq. rewrite (Hscore c Hc) in Hq. inversion Hq; subst.
    apply Hall. apply in_map. exact Hc.
  - destruct (nth_error_split _ _ Ha) as (earlier & later & E & Hlen).
    exists earlier, later. split; [exact E |].
    intros c q Hc Hq.
    assert (Hin : In c (combinations heroes TEAM_SIZE))
      by (rewrite E; apply in_or_app; left; exact Hc).
    rewrite (Hscore c Hin) in Hq. inversion Hq; subst.
    destruct (In_nth_error _ _ Hc) as (j & Hj).
    assert (Hjlt : (j < List.length earlier)%nat).
    { apply nth_error_Some. congruence. }
    apply (Hfirst j); [exact Hjlt |].
    rewrite nth_error_map, E, nth_error_app1, Hj; [reflexivity |].
    apply nth_error_Some. congruence.
Qed.

Lemma demo_scores_no_nan (c defenders : list Hero) (q : Float64.float) :
  win_probability features_demo model_demo c defenders = inr q ->
  Float64.is_nan q = false.
Proof.
  unfold win_probability.
  destruct (make_team_features features_demo c) as [e | a]; [discriminate |].
  destruct (make_team_features features_demo defenders) as [e | d];
    [discriminate |].
  simpl. intros H. inversion H; subst.
  destruct (0 <? _); reflexivity.
Qed.

Lemma model_select_attackers_first_best_witness :
  exists attackers p,
    model_select_attackers features_demo model_demo pool6_demo defenders_demo
    = inr (attackers, p)
    /\ forall c q, In c (combinations pool6_demo TEAM_SIZE) ->
                   win_probability features_demo model_demo c defenders_demo
                   = inr q ->
                   Float64.leb q p = true.
Proof.
  eexists _, _. split; [vm_compute; reflexivity |].
  apply (@model_select_attackers_first_best 2 features_demo model_demo
           pool6_demo defenders_demo _ _ ltac:(vm_compute; reflexivity)).
  intros c q _ Hq. exact (demo_scores_no_nan _ _ Hq).
Defined.

Lemma model_select_attackers_raises (dim : nat)
    (features : Hero -> Numpy.ndarray dim) (model : Model dim)
    (heroes defenders : list Hero) :
  (List.length heroes < TEAM_SIZE)%nat \/ defenders = [] ->
  raises (model_select_attackers features model heroes defenders).
Proof.
  unfold model_select_attackers. intros [Hlen | ->].
  - rewrite combinations_too_many by exact Hlen. simpl mapM. simpl bind.
    destruct (make_team_features features defenders); eexists; reflexivity.
  - rewrite team_rows. eexists. reflexivity.
Qed.

Lemma model_select_attackers_needs (dim : nat)
    (features : Hero -> Numpy.ndarray dim) (model : Model dim)
    (heroes defenders : list Hero) :
  (exists attackers p,
      model_select_attackers features model heroes defenders
      = inr (attackers, p)) ->
  (TEAM_SIZE <= List.length heroes)%nat /\ defenders <> [].
Proof.
  intros (attackers & p & H). split.
  - destruct (Nat.le_gt_cases TEAM_SIZE (List.length heroes)) as [Hl | Hl];
      [exact Hl |].
    destruct (@model_select_attackers_raises dim features model heroes
                defenders (or_introl Hl)) as (e & He).
    congruence.
  - intros Hd.
    destruct (@model_select_attackers_raises dim features model heroes
                defenders (or_intror Hd)) as (e & He).
    congruence.
Qed.

(** X3: the single-team selection returns a team exactly when the pool
    has at least [TEAM_SIZE] heroes and there is at least one defender;
    in every other case it raises. *)
Theorem model_select_attackers_returns_iff :
  forall (dim : nat) (features : Hero -> Numpy.ndarray dim) (model : Model dim)
         (heroes defenders : list Hero),
    ((exists attackers p,
         model_select_attackers features model heroes defenders
         = inr (attackers, p))
     <-> (TEAM_SIZE <= List.length heroes)%nat /\ defenders <> [])
    /\ (raises (model_select_attackers features model heroes defenders)
        <-> (List.length heroes < TEAM_SIZE)%nat \/ defenders = []).
Proof.
  intros dim features model heroes defenders. split; split.
  - apply model_select_attackers_needs.
  - intros [Hl Hd]. apply model_select_attackers_total; assumption.
  - intros (e & He).
    destruct (Nat.le_gt_cases TEAM_SIZE (List.length heroes)) as [Hl | Hl];
      [| left; exact Hl].
    destruct defenders as [| d ds]; [right; reflexivity |].
    destruct (@model_select_attackers_total dim features model heroes
                (d :: ds) Hl ltac:(discriminate)) as (a & p & H).
    congruence.
  - apply model_select_attackers_raises.
Qed.

(** ** Selection of the enemy *)

Lemma mapM_Forall2 {A B} (f : A -> result B) (l : list A) (bs : list B) :
  mapM f l = inr bs <-> Forall2 (fun a b => f a = inr b) l bs.
Proof.
  revert bs. induction l as [| a l IH]; intros bs; simpl.
  - split.
    + intros H. inversion H. constructor.
    + intros H. inversion H. reflexivity.
  - split.
    + destruct (f a) as [e | b] eqn:Ea; simpl; [discriminate |].
      destruct (mapM f l) as [e | bs'] eqn:El; simpl; [discriminate |].
      intros H. inversion H; subst. constructor; [exact Ea |].
      apply IH. reflexivity.
    + intros H. inversion H as [| ? b ? bs' Hb Hbs]; subst.
      rewrite Hb. simpl. apply IH in Hbs. rewrite Hbs. reflexivity.
Qed.

Lemma mapM_raises {A B} (f : A -> result B) (l : list A) (a : A) :
  In a l -> raises (f a) -> raises (mapM f l).
Proof.
  induction l as [| x l IH]; intros Hin Hr; [destruct Hin |]. simpl.
  destruct (f x) as [e | b] eqn:Ex; [eexists; reflexivity |]. simpl.
  destruct Hin as [<- | Hin].
  - destruct Hr as (e & He). congruence.
  - destruct (IH Hin Hr) as (e & ->). eexists; reflexivity.
Qed.

Lemma Forall2_in_l {A B} (R : A -> B -> Prop) (l : list A) (bs : list B)
    (a : A) :
  Forall2 R l bs -> In a l -> exists b, In b bs /\ R a b.
Proof.
  induction 1 as [| x y l bs Hxy _ IH]; intros Hin; [destruct Hin |].
  destruct Hin as [<- | Hin].
  - exists y. split; [left; reflexivity | exact Hxy].
  - destruct (IH Hin) as (b & Hb & Hab). exists b. split; [right |]; auto.
Qed.

Section MaxOfCandidates.
(** [max([(enemy, *select(enemy)) for enemy in enemies], key=itemgetter(2))]
    for any selection function. *)
Variables E S : Type.
Variable select : E -> result (S * Float64.float).

Let candidate (enemy : E) : result (E * S * Float64.float) :=
  '(s, p) <- select enemy ;; ret (enemy, s, p).

Let best (enemies : list E) : result (E * S * Float64.float) :=
  candidates <- mapM candidate enemies ;; max_by snd candidates.

Lemma candidate_inr (enemy enemy' : E) (s : S) (p : Float64.float) :
  candidate enemy = inr (enemy', s, p) <->
  enemy' = enemy /\ select enemy = inr (s, p).
Proof.
  unfold candidate. destruct (select enemy) as [e | [s' p']]; simpl.
  - split; [discriminate | intros [_ H]; discriminate].
  - split.
    + intros H. inversion H; subst. auto.
    + intros [-> H]. inversion H; subst. reflexivity.
Qed.

Lemma best_inr (enemies : list E) (enemy : E) (s : S) (p : Float64.float) :
  best enemies = inr (enemy, s, p) ->
  In enemy enemies /\ select enemy = inr (s, p).
Proof.
  unfold best.
  destruct (mapM candidate enemies) as [e | cs] eqn:Ec; [discriminate |].
  cbn [bind]. intros H. apply max_by_in in H.
  destruct (@mapM_in _ _ _ _ _ _ Ec H) as (enemy0 & Hin & Hc).
  apply candidate_inr in Hc. destruct Hc as [-> Hs]. auto.
Qed.

Lemma best_greatest (enemies : list E) (enemy : E) (s : S)
    (p : Float64.float) :
  best enemies = inr (enemy, s, p) ->
  (forall enemy' s' p', In enemy' enemies -> select enemy' = inr (s', p') ->
                        Float64.is_nan p' = false) ->
  forall enemy' s' p', In enemy' enemies -> select enemy' = inr (s', p') ->
                       Float64.leb p' p = true.
Proof.
  unfold best.
  destruct (mapM candidate enemies) as [e | cs] eqn:Ec; [discriminate |].
  cbn [bind]. intros H Hnan enemy' s' p' Hin Hs.
  apply mapM_Forall2 in Ec.
  assert (Hcs : no_nan (List.map snd cs)).
  { intros v Hv. apply in_map_iff in Hv. destruct Hv as ([[e0 s0] p0] & <- & Hc).
    apply Forall2_flip in Ec.
    destruct (@Forall2_in_l _ _ _ _ _ _ Ec Hc) as (e1 & He1 & Hc1).
    apply candidate_inr in Hc1. destruct Hc1 as [-> Hs1].
    simpl. eapply Hnan; eauto. }
  destruct (@max_by_greatest _ _ _ _ Hcs H) as [_ Hall].
  destruct (@Forall2_in_l _ _ _ _ _ _ Ec Hin) as (c & Hc & Hcc).
  destruct c as [[e0 s0] p0]. apply candidate_inr in Hcc.
  destruct Hcc as [-> Hs0]. rewrite Hs in Hs0. inversion Hs0; subst.
  exact (Hall _ Hc).
Qed.

Lemma best_returns_iff (enemies : list E) :
  (exists r, best enemies = inr r) <->
  enemies <> [] /\ forall enemy, In enemy enemies -> exists r, select enemy = inr r.
Proof.
  unfold best. split.
  - intros (r & H).
    destruct (mapM candidate enemies) as [e | cs] eqn:Ec; [discriminate |].
    cbn [bind] in H. apply mapM_Forall2 in Ec. split.
    + intros ->. inversion Ec; subst. discriminate.
    + intros enemy Hin. destruct (@Forall2_in_l _ _ _ _ _ _ Ec Hin) as ([[e0 s0] p0] & _ & Hc).
      apply candidate_inr in Hc. destruct Hc as [_ Hs]. eauto.
  - intros [Hne Hall].
    destruct (@mapM_succeeds _ _ candidate enemies) as (cs & -> & Hlen).
    + intros enemy Hin. destruct (Hall enemy Hin) as ([s p] & Hs).
      exists (enemy, s, p). apply candidate_inr. auto.
    + cbn [bind]. destruct cs as [| c cs].
      * destruct enemies; [congruence | discriminate].
      * eexists. reflexivity.
Qed.
End MaxOfCandidates.

(** X4: [select_enemy] returns a result exactly when there is at least
    one enemy, the pool has at least [TEAM_SIZE] heroes and every enemy
    fields at least one hero; with no enemy at all it raises [ValueError],
    and one enemy without heroes makes the whole selection fail. *)
Theorem select_enemy_returns_iff :
  forall (dim : nat) (features : Hero -> Numpy.ndarray dim) (model : Model dim)
         (enemies : list ArenaEnemy.t) (heroes : list Hero),
    ((exists r, select_enemy features model enemies heroes = inr r)
     <-> enemies <> []
         /\ (TEAM_SIZE <= List.length heroes)%nat
         /\ forall enemy, In enemy enemies -> ArenaEnemy.heroes enemy <> [])
    /\ select_enemy features model [] heroes = inl ValueError.
Proof.
  intros dim features model enemies heroes. split; [| reflexivity].
  unfold select_enemy.
  rewrite (best_returns_iff
             (fun enemy => model_select_attackers features model heroes
                             (ArenaEnemy.heroes enemy)) enemies).
  split.
  - intros [Hne Hall]. split; [exact Hne |].
    destruct enemies as [| e0 es]; [congruence |].
    destruct (Hall e0 (or_introl eq_refl)) as ([a p] & H0).
    assert (H1 : exists a p,
               model_select_attackers features model heroes
                 (ArenaEnemy.heroes e0) = inr (a, p)) by eauto.
    apply model_select_attackers_needs in H1. split; [apply H1 |].
    intros enemy Hin. destruct (Hall enemy Hin) as ([a' p'] & H').
    assert (H2 : exists a p,
               model_select_attackers features model heroes
                 (ArenaEnemy.heroes enemy) = inr (a, p)) by eauto.
    apply model_select_attackers_needs in H2. apply H2.
  - intros (Hne & Hlen & Hall). split; [exact Hne |].
    intros enemy Hin.
    destruct (@model_select_attackers_total dim features model heroes
                (ArenaEnemy.heroes enemy) Hlen (Hall enemy Hin))
      as (a & p & H).
    eexists. exact H.
Qed.

(** X5: the triple returned by [select_enemy] names one of the enemies
    together with the team and probability that the single-team selection
    gives against that enemy; and, NaN scores apart, no enemy's selection
    has a greater probability. *)
Theorem select_enemy_exact :
  forall (dim : nat) (features : Hero -> Numpy.ndarray dim) (model : Model dim)
         (enemies : list ArenaEnemy.t) (heroes : list Hero)
         (enemy : ArenaEnemy.t) (attackers : list Hero) (p : Float64.float),
    select_enemy features model enemies heroes = inr (enemy, attackers, p) ->
    In enemy enemies
    /\ model_select_attackers features model heroes (ArenaEnemy.heroes enemy)
       = inr (attackers, p)
    /\ ((forall enemy' a' p',
            In enemy' enemies ->
            model_select_attackers features model heroes
              (ArenaEnemy.heroes enemy') = inr (a', p') ->
            Float64.is_nan p' = false) ->
        forall enemy' a' p',
          In enemy' enemies ->
          model_select_attackers features model heroes
            (ArenaEnemy.heroes enemy') = inr (a', p') ->
          Float64.leb p' p = true).
Proof.
  intros dim features model enemies heroes enemy attackers p H.
  pose proof (best_inr
                (fun enemy => model_select_attackers features model heroes
                                (ArenaEnemy.heroes enemy)) enemies H)
    as [Hin Hsel].
  split; [exact Hin |]. split; [exact Hsel |].
  intros Hnan.
  exact (best_greatest
           (fun enemy => model_select_attackers features model heroes
                           (ArenaEnemy.heroes enemy)) enemies H Hnan).
Qed.

Lemma select_enemy_exact_witness :
  exists enemy attackers p,
    select_enemy features_demo model_demo enemies_demo pool6_demo
    = inr (enemy, attackers, p)
    /\ In enemy enemies_demo
    /\ forall enemy' a' p',
         In enemy' enemies_demo ->
         model_select_attackers features_demo model_demo pool6_demo
           (ArenaEnemy.heroes enemy') = inr (a', p') ->
         Float64.leb p' p = true.
Proof.
  eexists _, _, _. split; [vm_compute; reflexivity |].
  pose proof (@select_enemy_exact 2 features_demo model_demo enemies_demo
                pool6_demo _ _ _ ltac:(vm_compute; reflexivity))
    as (Hin & _ & Hbest).
  split; [exact Hin |]. apply Hbest.
  intros enemy' a' p' _ H'. apply model_select_attackers_inr in H'.
  destruct H' as [_ Hq]. exact (demo_scores_no_nan _ _ Hq).
Defined.

(** X6: [select_grand_enemy] raises [ValueError] on no enemy; a triple it
    returns names one of the enemies with the teams and joint probability
    that the multi-team allocation gives against that enemy's three teams
    and, NaN apart, no enemy's allocation has a greater joint probability;
    it returns exactly when there is an enemy and the allocation succeeds
    against every enemy. *)
Theorem select_grand_enemy_exact :
  forall (dim : nat) (features : Hero -> Numpy.ndarray dim) (model : Model dim)
         (GrandArenaEnemy : Type)
         (grand_heroes : GrandArenaEnemy -> list (list Hero))
         (enemies : list GrandArenaEnemy) (heroes : list Hero),
    select_grand_enemy features grand_heroes model [] heroes = inl ValueError
    /\ ((exists r,
            select_grand_enemy features grand_heroes model enemies heroes
            = inr r)
        <-> enemies <> []
            /\ forall enemy, In enemy enemies ->
                 exists r, model_select_grand_attackers features model heroes
                             (grand_heroes enemy) = inr r)
    /\ forall enemy teams p,
         select_grand_enemy features grand_heroes model enemies heroes
         = inr (enemy, teams, p) ->
         In enemy enemies
         /\ model_select_grand_attackers features model heroes
              (grand_heroes enemy) = inr (teams, p)
         /\ ((forall enemy' t' p',
                 In enemy' enemies ->
                 model_select_grand_attackers features model heroes
                   (grand_heroes enemy') = inr (t', p') ->
                 Float64.is_nan p' = false) ->
             forall enemy' t' p',
               In enemy' enemies ->
               model_select_grand_attackers features model heroes
                 (grand_heroes enemy') = inr (t', p') ->
               Float64.leb p' p = true).
Proof.
  intros dim features model G grand_heroes enemies heroes.
  split; [reflexivity |]. split.
  - unfold select_grand_enemy.
    apply (best_returns_iff
             (fun enemy => model_select_grand_attackers features model heroes
                             (grand_heroes enemy)) enemies).
  - intros enemy teams p H.
    pose proof (best_inr
                  (fun enemy => model_select_grand_attackers features model
                                  heroes (grand_heroes enemy)) enemies H)
      as [Hin Hsel].
    split; [exact Hin |]. split; [exact Hsel |].
    intros Hnan.
    exact (best_greatest
             (fun enemy => model_select_grand_attackers features model heroes
                             (grand_heroes enemy)) enemies H Hnan).
Qed.

Lemma select_grand_enemy_exact_witness :
  exists enemy teams p,
    select_grand_enemy features_demo (fun enemy => enemy) model_demo
      [defenders_teams_demo] pool15_demo = inr (enemy, teams, p)
    /\ In enemy [defenders_teams_demo]
    /\ model_select_grand_attackers features_demo model_demo pool15_demo enemy
       = inr (teams, p).
Proof.
  eexists _, _, _. split; [vm_compute; reflexivity |].
  pose proof (@select_grand_enemy_exact 2 features_demo model_demo
                (list (list Hero)) (fun enemy => enemy)
                [defenders_teams_demo] pool15_demo) as (_ & _ & Hret).
  destruct (Hret _ _ _ ltac:(vm_compute; reflexivity)) as (Hin & Hsel & _).
  split; [exact Hin | exact Hsel].
Defined.

(** ** Multi-team allocation: when it returns, and what *)

Lemma filter3_length {A} (P1 P2 P3 : A -> bool) (l : list A) :
  (forall a, In a l -> P1 a = true -> P2 a = true -> False) ->
  (forall a, In a l -> P1 a = true -> P3 a = true -> False) ->
  (forall a, In a l -> P2 a = true -> P3 a = true -> False) ->
  (List.length (List.filter P1 l) + List.length (List.filter P2 l)
   + List.length (List.filter P3 l) <= List.length l)%nat.
Proof.
  induction l as [| a l IH]; intros H12 H13 H23; simpl; [lia |].
  assert (IH' : (List.length (List.filter P1 l) + List.length (List.filter P2 l)
                 + List.length (List.filter P3 l) <= List.length l)%nat).
  { apply IH; intros b Hb; [apply H12 | apply H13 | apply H23]; right; exact Hb. }
  pose proof (H12 a (or_introl eq_refl)) as A12.
  pose proof (H13 a (or_introl eq_refl)) as A13.
  pose proof (H23 a (or_introl eq_refl)) as A23.
  destruct (P1 a), (P2 a), (P3 a); simpl; try lia;
    exfalso; auto.
Qed.

Lemma subseq_length_filter_ids {T} (item_id : T -> string) (g items : list T) :
  subseq g items ->
  (List.length g <=
   List.length (List.filter
                  (fun item => set_mem (item_id item) (List.map item_id g))
                  items))%nat.
Proof.
  intros Hs. apply subseq_length. apply subseq_filter. split; [exact Hs |].
  apply Forall_forall. intros x Hx. apply set_mem_In. apply in_map. exact Hx.
Qed.

Lemma three_disjoint_groups {T} (item_id : T -> string)
    (g1 g2 g3 items : list T) :
  subseq g1 items -> subseq g2 items -> subseq g3 items ->
  ids_disjoint item_id g1 g2 -> ids_disjoint item_id g1 g3 ->
  ids_disjoint item_id g2 g3 ->
  (List.length g1 + List.length g2 + List.length g3 <= List.length items)%nat.
Proof.
  intros S1 S2 S3 D12 D13 D23.
  pose proof (subseq_length_filter_ids item_id S1) as L1.
  pose proof (subseq_length_filter_ids item_id S2) as L2.
  pose proof (subseq_length_filter_ids item_id S3) as L3.
  pose proof (@filter3_length T
                (fun item => set_mem (item_id item) (List.map item_id g1))
                (fun item => set_mem (item_id item) (List.map item_id g2))
                (fun item => set_mem (item_id item) (List.map item_id g3))
                items) as F.
  cbv beta in F.
  assert ((List.length
             (List.filter
                (fun item => set_mem (item_id item) (List.map item_id g1)) items)
           + List.length
               (List.filter
                  (fun item => set_mem (item_id item) (List.map item_id g2)) items)
           + List.length
               (List.filter
                  (fun item => set_mem (item_id item) (List.map item_id g3)) items)
           <= List.length items)%nat); [| lia].
  apply F; intros a _ Ha Hb; apply set_mem_In in Ha, Hb.
  - exact (D12 _ Ha Hb).
  - exact (D13 _ Ha Hb).
  - exact (D23 _ Ha Hb).
Qed.

Lemma win_probability_defenders (dim : nat)
    (features : Hero -> Numpy.ndarray dim) (model : Model dim)
    (attackers defenders : list Hero) (p : Float64.float) :
  win_probability features model attackers defenders = inr p ->
  defenders <> [].
Proof.
  unfold win_probability. intros H ->.
  destruct (make_team_features features attackers); discriminate.
Qed.

(** What the allocation returns, with everything known about it. *)
Lemma model_select_grand_attackers_shape (dim : nat)
    (features : Hero -> Numpy.ndarray dim) (model : Model dim)
    (heroes : list Hero) (defenders_teams teams : list (list Hero))
    (p : Float64.float) :
  model_select_grand_attackers features model heroes defenders_teams
  = inr (teams, p) ->
  exists t1 t2 t3 d1 d2 d3,
    teams = [t1; t2; t3]
    /\ (nth_error defenders_teams 0 = Some d1
        /\ nth_error defenders_teams 1 = Some d2
        /\ nth_error defenders_teams 2 = Some d3)
    /\ (d1 <> [] /\ d2 <> [] /\ d3 <> [])
    /\ (ids_disjoint id t1 t2 /\ ids_disjoint id t1 t3 /\ ids_disjoint id t2 t3)
    /\ (In t1 (combinations heroes TEAM_SIZE)
        /\ In t2 (combinations heroes TEAM_SIZE)
        /\ In t3 (combinations heroes TEAM_SIZE)).
Proof.
  intros H. apply model_select_grand_attackers_inr in H.
  destruct H as (order & Horder & Hsel).
  destruct (selection_of_order_inr _ _ _ _ Horder Hsel) as (p0 & p1 & p2 & E & _).
  destruct (try_order_inr _ _ _ _ Horder E)
    as (t0 & t1 & t2 & d0 & d1 & d2 & q0 & q1 & q2
        & -> & _ & Hd & (W0 & W1 & W2) & Hdis & Hin).
  exists t0, t1, t2, d0, d1, d2. repeat split; try tauto;
    eapply win_probability_defenders; eauto.
Qed.

(** X7: the multi-team allocation returns only if the pool has at least
    fifteen heroes and the first three defending teams exist and are not
    empty: with a smaller pool, fewer than three teams or an empty team it
    raises. For a pool with pairwise distinct identifiers these conditions
    are also enough. *)
Theorem model_select_grand_attackers_returns_iff :
  forall (dim : nat) (features : Hero -> Numpy.ndarray dim) (model : Model dim)
         (heroes : list Hero) (defenders_teams : list (list Hero)),
    ((exists r,
         model_select_grand_attackers features model heroes defenders_teams
         = inr r) ->
     (N_GRAND_HEROES <= List.length heroes)%nat
     /\ exists d1 d2 d3,
          (nth_error defenders_teams 0 = Some d1
           /\ nth_error defenders_teams 1 = Some d2
           /\ nth_error defenders_teams 2 = Some d3)
          /\ d1 <> [] /\ d2 <> [] /\ d3 <> [])
    /\ ((List.length heroes < N_GRAND_HEROES)%nat ->
        raises (model_select_grand_attackers features model heroes
                  defenders_teams))
    /\ ((List.length defenders_teams < N_GRAND_TEAMS)%nat ->
        raises (model_select_grand_attackers features model heroes
                  defenders_teams))
    /\ (NoDup (List.map id heroes) ->
        (N_GRAND_HEROES <= List.length heroes)%nat ->
        (exists d1 d2 d3,
            (nth_error defenders_teams 0 = Some d1
             /\ nth_error defenders_teams 1 = Some d2
             /\ nth_error defenders_teams 2 = Some d3)
            /\ d1 <> [] /\ d2 <> [] /\ d3 <> []) ->
        exists r,
          model_select_grand_attackers features model heroes defenders_teams
          = inr r).
Proof.
  intros dim features model heroes defenders_teams.
  assert (Honly : (exists r,
                      model_select_grand_attackers features model heroes
                        defenders_teams = inr r) ->
                  (N_GRAND_HEROES <= List.length heroes)%nat
                  /\ exists d1 d2 d3,
                       (nth_error defenders_teams 0 = Some d1
                        /\ nth_error defenders_teams 1 = Some d2
                        /\ nth_error defenders_teams 2 = Some d3)
                       /\ d1 <> [] /\ d2 <> [] /\ d3 <> []).
  { intros ([teams p] & H).
    apply model_select_grand_attackers_shape in H.
    destruct H as (t1 & t2 & t3 & d1 & d2 & d3 & -> & Hd & Hne
                   & (D12 & D13 & D23) & (I1 & I2 & I3)).
    apply in_combinations in I1, I2, I3.
    destruct I1 as [S1 L1], I2 as [S2 L2], I3 as [S3 L3].
    pose proof (three_disjoint_groups S1 S2 S3 D12 D13 D23) as Hlen.
    split.
    - unfold N_GRAND_HEROES, N_GRAND_TEAMS. rewrite L1, L2, L3 in Hlen.
      unfold TEAM_SIZE in *. simpl in *. lia.
    - exists d1, d2, d3. tauto. }
  assert (Hcases : forall A (m : result A),
             ~ (exists r, m = inr r) -> raises m).
  { intros A [e | r] Hm; [eexists; reflexivity |].
    exfalso. apply Hm. eexists; reflexivity. }
  split; [exact Honly |]. split; [| split].
  - intros Hlen. apply Hcases. intros Hr. apply Honly in Hr.
    destruct Hr as [Hr _]. lia.
  - intros Hlen. apply Hcases. intros Hr. apply Honly in Hr.
    destruct Hr as [_ (d1 & d2 & d3 & (_ & _ & H3) & _)].
    assert (2 < List.length defenders_teams)%nat
      by (apply nth_error_Some; congruence).
    unfold N_GRAND_TEAMS in Hlen. lia.
  - intros Hnd Hlen (d1 & d2 & d3 & (H1 & H2 & H3) & N1 & N2 & N3).
    destruct (@model_select_grand_attackers_total dim features model heroes
                defenders_teams d1 d2 d3 Hnd Hlen H1 N1 H2 N2 H3 N3)
      as (teams & p & H).
    eexists. exact H.
Qed.

Lemma model_select_grand_attackers_returns_iff_witness :
  raises (model_select_grand_attackers features_demo model_demo pool6_demo
            defenders_teams_demo)
  /\ exists r,
       model_select_grand_attackers features_demo model_demo pool15_demo
         defenders_teams_demo = inr r.
Proof.
  split.
  - apply (proj1 (proj2 (@model_select_grand_attackers_returns_iff
                           2 features_demo model_demo pool6_demo
                           defenders_teams_demo))).
    unfold N_GRAND_HEROES, N_GRAND_TEAMS, TEAM_SIZE. simpl. lia.
  - apply (proj2 (proj2 (proj2 (@model_select_grand_attackers_returns_iff
                                  2 features_demo model_demo pool15_demo
                                  defenders_teams_demo)))).
    + exact pool15_demo_distinct.
    + unfold N_GRAND_HEROES, N_GRAND_TEAMS, TEAM_SIZE. simpl. lia.
    + eexists _, _, _. repeat split; try reflexivity; discriminate.
Defined.

(** X8: each of the three teams returned by the multi-team allocation has
    exactly [TEAM_SIZE] heroes, all taken from the pool in pool order. *)
Theorem model_select_grand_attackers_teams_of_five :
  forall (dim : nat) (features : Hero -> Numpy.ndarray dim) (model : Model dim)
         (heroes : list Hero) (defenders_teams teams : list (list Hero))
         (p : Float64.float),
    model_select_grand_attackers features model heroes defenders_teams
    = inr (teams, p) ->
    List.length teams = N_GRAND_TEAMS
    /\ forall team, In team teams ->
                    List.length team = TEAM_SIZE
                    /\ subseq team heroes
                    /\ forall h, In h team -> In h heroes.
Proof.
  intros dim features model heroes defenders_teams teams p H.
  apply model_select_grand_attackers_shape in H.
  destruct H as (t1 & t2 & t3 & d1 & d2 & d3 & -> & _ & _ & _ & (I1 & I2 & I3)).
  split; [reflexivity |].
  intros team [<- | [<- | [<- | []]]];
    match goal with
    | I : In ?t (combinations heroes TEAM_SIZE) |- context [List.length ?t] =>
        apply in_combinations in I; destruct I as [S L];
        repeat split; auto; intros h Hh; eapply subseq_In; eauto
    end.
Qed.

Lemma model_select_grand_attackers_teams_of_five_witness :
  exists teams p,
    model_select_grand_attackers features_demo model_demo pool15_demo
      defenders_teams_demo = inr (teams, p)
    /\ List.length teams = N_GRAND_TEAMS.
Proof.
  eexists _, _. split; [vm_compute; reflexivity |].
  apply (@model_select_grand_attackers_teams_of_five 2 features_demo
           model_demo pool15_demo defenders_teams_demo _ _
           ltac:(vm_compute; reflexivity)).
Defined.

(** X9: NaN apart, the joint probability returned by the multi-team
    allocation is not exceeded by the joint probability recorded for any
    of the six orderings. *)
Theorem model_select_grand_attackers_best_order :
  forall (dim : nat) (features : Hero -> Numpy.ndarray dim) (model : Model dim)
         (heroes : list Hero) (defenders_teams teams : list (list Hero))
         (p : Float64.float),
    model_select_grand_attackers features model heroes defenders_teams
    = inr (teams, p) ->
    (forall order teams' q,
        In order (permutations (range 3)) ->
        selection_of_order features model heroes defenders_teams order
        = inr (teams', q) ->
        Float64.is_nan q = false) ->
    forall order teams' q,
      In order (permutations (range 3)) ->
      selection_of_order features model heroes defenders_teams order
      = inr (teams', q) ->
      Float64.leb q p = true.
Proof.
  intros dim features model heroes defenders_teams teams p H Hnan
         order teams' q Horder Hsel.
  unfold model_select_grand_attackers in H.
  destruct (mapM _ (permutations (range 3))) as [e | sels] eqn:E;
    [discriminate |].
  cbn [bind] in H. apply mapM_Forall2 in E.
  assert (Hs : no_nan (List.map snd sels)).
  { intros v Hv. apply in_map_iff in Hv. destruct Hv as ([t0 q0] & <- & Hc).
    apply Forall2_flip in E.
    destruct (@Forall2_in_l _ _ _ _ _ _ E Hc) as (o & Ho & Hso).
    simpl. eapply Hnan; eauto. }
  destruct (@max_by_greatest _ _ _ _ Hs H) as [_ Hall].
  destruct (@Forall2_in_l _ _ _ _ _ _ E Horder) as ([t0 q0] & Hc & Hso).
  rewrite Hsel in Hso. inversion Hso; subst.
  exact (Hall _ Hc).
Qed.

Lemma model_select_grand_attackers_best_order_witness :
  exists teams p,
    model_select_grand_attackers features_demo model_demo pool15_demo
      defenders_teams_demo = inr (teams, p)
    /\ forall order teams' q,
         In order (permutations (range 3)) ->
         selection_of_order features_demo model_demo pool15_demo
           defenders_teams_demo order = inr (teams', q) ->
         Float64.leb q p = true.
Proof.
  eexists _, _. split; [vm_compute; reflexivity |].
  apply (@model_select_grand_attackers_best_order 2 features_demo model_demo
           pool15_demo defenders_teams_demo _ _
           ltac:(vm_compute; reflexivity)).
  intros order teams' q Horder.
  each_order Horder; vm_compute; intros H; inversion H; reflexivity.
Defined.

(** ** The optimal-stopping selector on arbitrary sequences *)

Section SecretaryGeneral.
Variables T1 T2 : Type.
Variable gt : T2 -> T2 -> bool.

Lemma skip_max_firstn (count : nat) (best : option (T1 * T2))
    (it : list (T1 * T2)) :
  skip_max gt count best it =
  if (List.length it <? count)%nat then inl RuntimeError
  else inr (running_max gt best (firstn count it), skipn count it).
Proof.
  revert best it. induction count as [| count IH]; intros best it.
  - reflexivity.
  - destruct it as [| p rest]; [reflexivity |].
    cbn [skip_max next_in_genexpr bind ret]. rewrite IH.
    change (List.length (p :: rest) <? S count)%nat
      with (List.length rest <? count)%nat.
    destruct (List.length rest <? count)%nat; reflexivity.
Qed.

Lemma first_better_nonempty (max_key : option T2) (last : option (T1 * T2))
    (it : list (T1 * T2)) :
  it <> [] ->
  exists p, first_better gt max_key last it = Some p /\ In p it.
Proof.
  revert last. induction it as [| [item item_key] rest IH]; intros last Hne;
    [congruence |].
  cbn [first_better]. destruct max_key as [m |].
  - destruct (gt item_key m).
    + eexists. split; [reflexivity | left; reflexivity].
    + destruct rest as [| q rest'].
      * eexists. split; [reflexivity | left; reflexivity].
      * destruct (IH (Some (item, item_key)) ltac:(discriminate))
          as (p & Hp & Hin).
        exists p. split; [exact Hp | right; exact Hin].
  - eexists. split; [reflexivity | left; reflexivity].
Qed.

(** The loop stops at the first pair whose key is greater than [m], or
    runs to the last pair. *)
Lemma first_better_split (m : T2) (last : option (T1 * T2))
    (it : list (T1 * T2)) (p : T1 * T2) :
  it <> [] ->
  first_better gt (Some m) last it = Some p ->
  exists middle post,
    it = middle ++ p :: post
    /\ (forall x, In x middle -> gt (snd x) m = false)
    /\ (gt (snd p) m = true \/ post = []).
Proof.
  revert last. induction it as [| [item item_key] rest IH]; intros last Hne H;
    [congruence |].
  cbn [first_better] in H. destruct (gt item_key m) eqn:Eg.
  - inversion H; subst. exists [], rest. repeat split; auto.
    intros x [].
  - destruct rest as [| q rest'].
    + simpl in H. inversion H; subst. exists [], []. repeat split; auto.
      intros x [].
    + destruct (IH (Some (item, item_key)) ltac:(discriminate) H)
        as (middle & post & E & Hmid & Hp).
      exists ((item, item_key) :: middle), post. rewrite E.
      repeat split; auto.
      intros x [<- | Hx]; [exact Eg | exact (Hmid x Hx)].
Qed.

(** The selector, split into its two phases. *)
Lemma secretary_max_key_phases (items : list T1) (n r : Z) (key : T1 -> T2) :
  secretary_r n = inr r ->
  secretary_max_key gt items n key =
  let it := List.map (fun item => (item, key item)) items in
  let count := Z.to_nat (r - 1) in
  if (List.length items <? count)%nat then inl RuntimeError
  else match first_better gt
               (option_map snd (running_max gt None (firstn count it)))
               None (skipn count it) with
       | Some p => inr p
       | None => inl UnboundLocalError
       end.
Proof.
  intros Hr. unfold secretary_max_key. rewrite Hr. cbn [bind].
  rewrite skip_max_firstn. unfold range. rewrite length_seq, length_map.
  cbv zeta. destruct (List.length items <? Z.to_nat (r - 1))%nat; reflexivity.
Qed.
End SecretaryGeneral.

(** X10: how the selector ends depends on the length of the sequence
    only: with [r = int(n / e) + 1], a sequence of fewer than [r - 1] items
    raises [RuntimeError], one of exactly [r - 1] items (all of them
    skipped, or none at all) raises [UnboundLocalError], and a longer one
    returns an item with its key. *)
Theorem secretary_max_outcome_by_length :
  forall (T1 T2 : Type) (gt : T2 -> T2 -> bool) (items : list T1) (n r : Z)
         (key : T1 -> T2),
    secretary_r n = inr r ->
    ((List.length items < Z.to_nat (r - 1))%nat ->
     secretary_max_key gt items n key = inl RuntimeError)
    /\ (List.length items = Z.to_nat (r - 1) ->
        secretary_max_key gt items n key = inl UnboundLocalError)
    /\ ((Z.to_nat (r - 1) < List.length items)%nat ->
        exists item, In item items
                     /\ secretary_max_key gt items n key = inr (item, key item)).
Proof.
  intros T1 T2 gt items n r key Hr.
  rewrite (@secretary_max_key_phases T1 T2 gt items n r key Hr). cbv zeta.
  repeat split.
  - intros Hlen. apply Nat.ltb_lt in Hlen. rewrite Hlen. reflexivity.
  - intros Hlen.
    replace (List.length items <? Z.to_nat (r - 1))%nat with false
      by (symmetry; apply Nat.ltb_ge; lia).
    rewrite skipn_all2 by (rewrite length_map; lia). reflexivity.
  - intros Hlen.
    replace (List.length items <? Z.to_nat (r - 1))%nat with false
      by (symmetry; apply Nat.ltb_ge; lia).
    match goal with |- context [first_better gt ?mk None ?it] =>
      destruct (@first_better_nonempty T1 T2 gt mk None it) as (p & -> & Hin)
    end.
    + intros E. apply (f_equal (@List.length _)) in E.
      rewrite length_skipn, length_map in E. simpl in E. lia.
    + rewrite skipn_map in Hin. apply in_map_iff in Hin.
      destruct Hin as (item & <- & Hitem).
      exists item. split; [| reflexivity].
      rewrite <- (firstn_skipn (Z.to_nat (r - 1)) items).
      apply in_or_app. right. exact Hitem.
Qed.

Lemma secretary_max_outcome_by_length_witness :
  secretary_max_key Z.gtb [5; 1] 10 (fun i => i) = inl RuntimeError
  /\ secretary_max_key Z.gtb [5; 1; 7] 10 (fun i => i) = inl UnboundLocalError
  /\ exists item, In item [5; 1; 7; 2]
                  /\ secretary_max_key Z.gtb [5; 1; 7; 2] 10 (fun i => i)
                     = inr (item, item).
Proof.
  assert (Hr : secretary_r 10 = inr 4) by (vm_compute; reflexivity).
  split; [| split].
  - apply (proj1 (@secretary_max_outcome_by_length Z Z Z.gtb [5; 1] 10 4
                    (fun i => i) Hr)).
    simpl. lia.
  - apply (proj1 (proj2 (@secretary_max_outcome_by_length Z Z Z.gtb [5; 1; 7]
                           10 4 (fun i => i) Hr))).
    reflexivity.
  - apply (proj2 (proj2 (@secretary_max_outcome_by_length Z Z Z.gtb
                           [5; 1; 7; 2] 10 4 (fun i => i) Hr))).
    simpl. lia.
Defined.

(** X11: the item returned is never one of the first [r - 1] items: the
    sequence splits into at least [r - 1] items, the returned item, and
    the items never looked at; and the key returned is the key of that
    item. *)
Theorem secretary_max_after_skipped :
  forall (T1 T2 : Type) (gt : T2 -> T2 -> bool) (items : list T1) (n r : Z)
         (key : T1 -> T2) (item : T1) (item_key : T2),
    secretary_r n = inr r ->
    secretary_max_key gt items n key = inr (item, item_key) ->
    item_key = key item
    /\ exists before after,
         items = before ++ item :: after
         /\ (Z.to_nat (r - 1) <= List.length before)%nat.
Proof.
  intros T1 T2 gt items n r key item item_key Hr.
  rewrite (@secretary_max_key_phases T1 T2 gt items n r key Hr). cbv zeta.
  destruct (List.length items <? Z.to_nat (r - 1))%nat eqn:El; [discriminate |].
  apply Nat.ltb_ge in El.
  destruct (skipn (Z.to_nat (r - 1))
              (List.map (fun item0 => (item0, key item0)) items))
    as [| q rest] eqn:Es; [discriminate |].
  match goal with |- context [first_better gt ?mk None (q :: rest)] =>
    destruct (@first_better_nonempty T1 T2 gt mk None (q :: rest)
                ltac:(discriminate)) as (p & -> & Hin)
  end.
  intros H. inversion H; subst p; clear H.
  rewrite <- Es, skipn_map in Hin. apply in_map_iff in Hin.
  destruct Hin as (item0 & E0 & Hitem). inversion E0; subst.
  split; [reflexivity |].
  destruct (in_split _ _ Hitem) as (a & after & Ea).
  exists (firstn (Z.to_nat (r - 1)) items ++ a), after. split.
  - rewrite <- app_assoc, <- Ea. symmetry. apply firstn_skipn.
  - rewrite length_app, length_firstn. lia.
Qed.

Lemma secretary_max_after_skipped_witness :
  exists before after,
    [5; 1; 7; 2; 9; 3] = before ++ 9 :: after
    /\ (Z.to_nat (4 - 1) <= List.length before)%nat.
Proof.
  apply (@secretary_max_after_skipped Z Z Z.gtb [5; 1; 7; 2; 9; 3] 10 4
           (fun i => i) 9 9);
    vm_compute; reflexivity.
Defined.

Lemma running_max_Z_some {T} (l : list (T * Z)) (b : T * Z) :
  exists b',
    running_max Z.gtb (Some b) l = Some b'
    /\ (b' = b \/ In b' l)
    /\ snd b <= snd b'
    /\ forall p, In p l -> snd p <= snd b'.
Proof.
  revert b. induction l as [| q l IH]; intros b.
  - exists b. simpl. repeat split; auto; try lia; intros p [].
  - change (running_max Z.gtb (Some b) (q :: l))
      with (running_max Z.gtb
              (if Z.gtb (snd q) (snd b) then Some q else Some b) l).
    destruct (Z.gtb (snd q) (snd b)) eqn:Eg.
    + destruct (IH q) as (b' & Hb' & Hin & Hle & Hall).
      exists b'. rewrite Hb'. repeat split.
      * right. destruct Hin as [-> | Hin]; [left | right]; auto.
      * apply Z.gtb_lt in Eg. lia.
      * intros p [<- | Hp]; auto.
    + destruct (IH b) as (b' & Hb' & Hin & Hle & Hall).
      exists b'. rewrite Hb'. repeat split; auto.
      * destruct Hin as [-> | Hin]; [left | right; right]; auto.
      * intros p [<- | Hp]; auto.
        assert (snd q <= snd b); [| lia].
        destruct (Z.gtb_spec (snd q) (snd b)); [discriminate | lia].
Qed.

(** X12: with integer keys and [r >= 2], what is returned is the first
    item after the [r - 1] skipped ones whose key is greater than all of
    their keys, and the last item of the sequence when there is none: the
    items passed over in between do not exceed the skipped maximum. *)
Theorem secretary_max_stopping_rule :
  forall (T : Type) (items : list T) (n r : Z) (key : T -> Z)
         (item : T) (item_key : Z),
    secretary_r n = inr r ->
    (0 < Z.to_nat (r - 1))%nat ->
    secretary_max_key Z.gtb items n key = inr (item, item_key) ->
    exists skipped middle after,
      items = skipped ++ middle ++ item :: after
      /\ List.length skipped = Z.to_nat (r - 1)
      /\ (forall x, In x middle -> exists s, In s skipped /\ key x <= key s)
      /\ ((forall s, In s skipped -> key s < key item) \/ after = []).
Proof.
  intros T items n r key item item_key Hr Hpos.
  rewrite (@secretary_max_key_phases T Z Z.gtb items n r key Hr). cbv zeta.
  destruct (List.length items <? Z.to_nat (r - 1))%nat eqn:El; [discriminate |].
  apply Nat.ltb_ge in El.
  set (count := Z.to_nat (r - 1)) in *.
  set (f := fun item0 : T => (item0, key item0)).
  rewrite firstn_map, skipn_map.
  destruct (firstn count items) as [| s0 skipped'] eqn:Ef.
  { apply (f_equal (@List.length _)) in Ef. rewrite length_firstn in Ef.
    simpl in Ef. lia. }
  cbn [List.map].
  change (running_max Z.gtb None (f s0 :: List.map f skipped'))
    with (running_max Z.gtb (Some (f s0)) (List.map f skipped')).
  destruct (running_max_Z_some (List.map f skipped') (f s0))
    as (b & -> & Hb & Hle0 & Hall).
  cbn [option_map].
  destruct (skipn count items) as [| x0 rest] eqn:Es; [discriminate |].
  destruct (first_better Z.gtb (Some (snd b)) None (List.map f (x0 :: rest)))
    as [p |] eqn:Efb; [| discriminate].
  intros H. inversion H; subst p; clear H.
  apply first_better_split in Efb; [| discriminate].
  destruct Efb as (middle_p & post_p & E & Hmid & Hstop).
  apply map_eq_app in E. destruct E as (middle & tl & Etl & Em & Et).
  destruct tl as [| item0 after]; [discriminate |].
  cbn [List.map] in Et. inversion Et as [[Ei Ek Ea]]. subst item0.
  assert (Hmax : exists s, In s (s0 :: skipped') /\ snd b = key s).
  { destruct Hb as [-> | Hb]; [exists s0; split; [left |]; reflexivity |].
    apply in_map_iff in Hb. destruct Hb as (s & <- & Hs).
    exists s. split; [right; exact Hs | reflexivity]. }
  destruct Hmax as (smax & Hsmax & Esmax).
  assert (Hle : forall s, In s (s0 :: skipped') -> key s <= snd b).
  { intros s [<- | Hs]; [exact Hle0 |].
    apply (Hall (f s)). apply in_map. exact Hs. }
  exists (s0 :: skipped'), middle, after. repeat split.
  - rewrite <- Etl, <- Es, <- Ef. symmetry. apply firstn_skipn.
  - rewrite <- Ef. rewrite length_firstn. lia.
  - intros x Hx. exists smax. split; [exact Hsmax |].
    rewrite <- Esmax.
    assert (Hg : Z.gtb (snd (f x)) (snd b) = false).
    { apply Hmid. rewrite <- Em. apply in_map. exact Hx. }
    simpl in Hg. destruct (Z.gtb_spec (key x) (snd b)); [discriminate | lia].
  - destruct Hstop as [Hgt | ->].
    + left. intros s Hs. specialize (Hle s Hs).
      simpl in Hgt. apply Z.gtb_lt in Hgt. lia.
    + right. destruct after; [reflexivity | discriminate].
Qed.

Lemma secretary_max_stopping_rule_witness :
  exists skipped middle after,
    [5; 1; 7; 2; 9; 3] = skipped ++ middle ++ 9 :: after
    /\ List.length skipped = Z.to_nat (4 - 1)
    /\ (forall x, In x middle -> exists s, In s skipped /\ x <= s)
    /\ ((forall s, In s skipped -> s < 9) \/ after = []).
Proof.
  apply (@secretary_max_stopping_rule Z [5; 1; 7; 2; 9; 3] 10 4
           (fun i => i) 9 9);
    [vm_compute; reflexivity | simpl; lia | vm_compute; reflexivity].
Defined.

(** ** Naive selection on any pool *)

Lemma insert_perm (x : Hero) (l r : list Hero) :
  insert lt_power power x l = inr r -> Permutation (x :: l) r.
Proof.
  revert r. induction l as [| y l IH]; intros r H; simpl in H.
  - inversion H. reflexivity.
  - destruct (lt_power (power y) (power x)) as [e | b]; [discriminate |].
    simpl in H. destruct b.
    + destruct (insert lt_power power x l) as [e | r']; [discriminate |].
      simpl in H. inversion H; subst.
      rewrite perm_swap. constructor. apply IH. reflexivity.
    + inversion H. reflexivity.
Qed.

Lemma sort_perm (l s : list Hero) :
  sort lt_power power l = inr s -> Permutation l s.
Proof.
  revert s. induction l as [| x l IH]; intros s H; simpl in H.
  - inversion H. constructor.
  - destruct (sort lt_power power l) as [e | s']; [discriminate |].
    simpl in H. apply insert_perm in H. rewrite <- H. constructor.
    apply IH. reflexivity.
Qed.

Lemma insert_known (x y : Hero) (l r : list Hero) :
  insert lt_power power x (y :: l) = inr r ->
  power x <> None /\ power y <> None.
Proof.
  simpl. unfold lt_power at 1.
  destruct (power y), (power x); try discriminate.
  intros _. split; discriminate.
Qed.

(** A sort of two heroes or more that goes through has compared, and so
    known, every power. *)
Lemma sort_known (l s : list Hero) :
  sort lt_power power l = inr s ->
  (2 <= List.length l)%nat ->
  forall h, In h l -> power h <> None.
Proof.
  revert s. induction l as [| x l IH]; intros s H Hlen; [simpl in Hlen; lia |].
  simpl in H.
  destruct (sort lt_power power l) as [e | s'] eqn:Es; [discriminate |].
  simpl in H. pose proof (sort_perm _ Es) as Hp.
  destruct s' as [| y s''].
  { apply Permutation_length in Hp. simpl in *. lia. }
  pose proof (insert_known _ _ _ H) as [Hx Hy].
  intros h [<- | Hh]; [exact Hx |].
  destruct l as [| z [| z' l']].
  - destruct Hh.
  - apply Permutation_length_1_inv in Hp. inversion Hp; subst.
    destruct Hh as [<- | []]. exact Hy.
  - apply (IH _ eq_refl); [simpl; lia | exact Hh].
Qed.

Lemma insert_error (x : Hero) (l : list Hero) (e : exn) :
  insert lt_power power x l = inl e -> e = TypeError.
Proof.
  induction l as [| y l IH]; simpl; [discriminate |].
  unfold lt_power at 1.
  destruct (power y), (power x); simpl;
    try (intros H; inversion H; reflexivity).
  destruct (_ <? _); [| discriminate].
  destruct (insert lt_power power x l) as [e' | r]; simpl; [| discriminate].
  intros H. inversion H; subst. apply IH. reflexivity.
Qed.

Lemma sort_error (l : list Hero) (e : exn) :
  sort lt_power power l = inl e -> e = TypeError.
Proof.
  induction l as [| x l IH]; simpl; [discriminate |].
  destruct (sort lt_power power l) as [e' | s]; simpl.
  - intros H. inversion H; subst. apply IH. reflexivity.
  - apply insert_error.
Qed.

Lemma StronglySorted_app_inv {A} (R : A -> A -> Prop) (l1 l2 : list A) :
  StronglySorted R (l1 ++ l2) ->
  StronglySorted R l1
  /\ forall a b, In a l1 -> In b l2 -> R a b.
Proof.
  induction l1 as [| x l1 IH]; simpl; intros H.
  - split; [constructor | intros a b []].
  - inversion H as [| ? ? Hs Hall]; subst.
    destruct (IH Hs) as [Hs1 Hcross]. split.
    + constructor; [exact Hs1 |].
      apply Forall_app in Hall. apply Hall.
    + intros a b [<- | Ha] Hb.
      * rewrite Forall_forall in Hall. apply Hall. apply in_or_app. right; auto.
      * apply Hcross; assumption.
Qed.

(** X13: when every power is known, the naive selection returns the
    [min(len, TEAM_SIZE)] strongest heroes in descending order of power:
    the heroes left out are exactly the rest of the pool, and none of them
    is stronger than a selected one. *)
Theorem naive_select_attackers_strongest :
  forall heroes : list Hero,
    (forall h, In h heroes -> power h <> None) ->
    exists team rest,
      naive_select_attackers heroes = inr team
      /\ List.length team = Nat.min (List.length heroes) TEAM_SIZE
      /\ Permutation heroes (team ++ rest)
      /\ StronglySorted power_ge team
      /\ forall t r, In t team -> In r rest -> power_ge t r.
Proof.
  intros heroes Hknown.
  destruct (@sort_power_sorted (rev heroes)) as (r & Hr & Hp & Hs).
  { intros h Hh. apply Hknown. apply in_rev. exact Hh. }
  assert (Hperm : Permutation heroes (rev r)).
  { rewrite <- Permutation_rev. rewrite <- Hp. apply Permutation_rev. }
  apply StronglySorted_rev in Hs.
  exists (firstn TEAM_SIZE (rev r)), (skipn TEAM_SIZE (rev r)).
  unfold naive_select_attackers, sorted. rewrite Hr. unfold bind, ret.
  rewrite firstn_skipn.
  rewrite <- (firstn_skipn TEAM_SIZE (rev r)) in Hs.
  apply StronglySorted_app_inv in Hs. destruct Hs as [Hs1 Hcross].
  repeat split; auto.
  rewrite length_firstn, (Permutation_length Hperm). apply Nat.min_comm.
Qed.

Lemma naive_select_attackers_strongest_witness :
  exists team rest,
    naive_select_attackers pool6_demo = inr team
    /\ List.length team = Nat.min (List.length pool6_demo) TEAM_SIZE
    /\ Permutation pool6_demo (team ++ rest)
    /\ StronglySorted power_ge team
    /\ forall t r, In t team -> In r rest -> power_ge t r.
Proof.
  apply (naive_select_attackers_strongest pool6_demo).
  intros h Hh. repeat (destruct Hh as [<- | Hh]; [discriminate |]).
  destruct Hh.
Defined.

(** X14: the naive selection raises exactly when there are at least two
    heroes and the power of one of them is unknown, and then it is a
    [TypeError]; a pool of at most one hero is returned as it is, whether
    the power is known or not. *)
Theorem naive_select_attackers_unknown_power :
  forall heroes : list Hero,
    (raises (naive_select_attackers heroes)
     <-> (2 <= List.length heroes)%nat
         /\ exists h, In h heroes /\ power h = None)
    /\ (forall e, naive_select_attackers heroes = inl e -> e = TypeError)
    /\ ((List.length heroes <= 1)%nat ->
        naive_select_attackers heroes = inr heroes).
Proof.
  intros heroes.
  assert (Hsmall : (List.length heroes <= 1)%nat ->
                   naive_select_attackers heroes = inr heroes).
  { destruct heroes as [| h [| h' l]]; simpl; intros Hl; try lia; reflexivity. }
  assert (Herr : forall e, naive_select_attackers heroes = inl e ->
                           e = TypeError).
  { intros e. unfold naive_select_attackers, sorted.
    destruct (sort lt_power power (rev heroes)) as [e' | s] eqn:Es; simpl.
    - intros H. inversion H; subst. eapply sort_error; eauto.
    - discriminate. }
  split; [| split; assumption].
  split.
  - intros (e & He). split.
    + destruct (Nat.le_gt_cases 2 (List.length heroes)) as [Hl | Hl]; [exact Hl |].
      rewrite Hsmall in He by lia. discriminate.
    + destruct (Forall_Exists_dec (fun h => power h <> None)) with (l := heroes)
        as [Hall | Hex].
      { intros h. destruct (power h); [left; discriminate | right; auto]. }
      * rewrite Forall_forall in Hall.
        destruct (@sort_power_sorted (rev heroes)) as (r & Hr & _).
        { intros h Hh. apply Hall. apply in_rev. exact Hh. }
        unfold naive_select_attackers, sorted in He. rewrite Hr in He.
        discriminate.
      * apply Exists_exists in Hex. destruct Hex as (h & Hh & Hn).
        exists h. split; [exact Hh |].
        destruct (power h); [exfalso; apply Hn; discriminate | reflexivity].
  - intros (Hlen & h & Hh & Hn).
    destruct (naive_select_attackers heroes) as [e | team] eqn:E;
      [eexists; reflexivity |].
    exfalso. unfold naive_select_attackers, sorted in E.
    destruct (sort lt_power power (rev heroes)) as [e | s] eqn:Es;
      [discriminate |].
    apply (sort_known _ Es) with (h := h).
    + rewrite length_rev. exact Hlen.
    + apply in_rev. rewrite rev_involutive. exact Hh.
    + exact Hn.
Qed.

Lemma naive_select_attackers_unknown_power_witness :
  naive_select_attackers [hero_unknown "a"] = inr [hero_unknown "a"]
  /\ raises (naive_select_attackers [hero_of "b" 10; hero_unknown "a"]).
Proof.
  split.
  - apply (proj2 (proj2 (naive_select_attackers_unknown_power
                           [hero_unknown "a"]))).
    simpl. lia.
  - apply (proj1 (naive_select_attackers_unknown_power
                    [hero_of "b" 10; hero_unknown "a"])).
    split; [simpl; lia |].
    exists (hero_unknown "a"). split; [right; left; reflexivity | reflexivity].
Defined.

Lemma insert_stable (v : Z) (x : Hero) (l r : list Hero) :
  insert lt_power power x l = inr r ->
  List.filter (has_power v) r = List.filter (has_power v) (x :: l).
Proof.
  revert r. induction l as [| y l IH]; intros r H; simpl in H.
  - inversion H. reflexivity.
  - unfold lt_power at 1 in H.
    destruct (power y) as [py |] eqn:Ey; [| discriminate].
    destruct (power x) as [px |] eqn:Ex; [| discriminate].
    simpl in H. destruct (py <? px) eqn:Hlt.
    + destruct (insert lt_power power x l) as [e | r']; [discriminate |].
      simpl in H. inversion H; subst. specialize (IH r' eq_refl).
      assert (Hy : has_power v y = (py =? v))
        by (unfold has_power; rewrite Ey; reflexivity).
      assert (Hx : has_power v x = (px =? v))
        by (unfold has_power; rewrite Ex; reflexivity).
      cbn [List.filter] in *. rewrite IH, Hy, Hx.
      apply Z.ltb_lt in Hlt.
      destruct (py =? v) eqn:E1; destruct (px =? v) eqn:E2; try reflexivity.
      apply Z.eqb_eq in E1, E2. lia.
    + inversion H. reflexivity.
Qed.

Lemma sort_stable (v : Z) (l s : list Hero) :
  sort lt_power power l = inr s ->
  List.filter (has_power v) s = List.filter (has_power v) l.
Proof.
  revert s. induction l as [| x l IH]; intros s H; simpl in H.
  - inversion H. reflexivity.
  - destruct (sort lt_power power l) as [e | s']; [discriminate |].
    simpl in H. apply (insert_stable v) in H. rewrite H.
    cbn [List.filter]. rewrite (IH s' eq_refl). reflexivity.
Qed.

(** X15: the naive selection is stable: the selected heroes of one and
    the same power stand in the team in the order they have in the pool,
    and they are the first of that power in the pool. *)
Theorem naive_select_attackers_stable :
  forall (heroes team : list Hero) (v : Z),
    naive_select_attackers heroes = inr team ->
    exists others,
      List.filter (has_power v) heroes
      = List.filter (has_power v) team ++ others.
Proof.
  intros heroes team v. unfold naive_select_attackers, sorted.
  destruct (sort lt_power power (rev heroes)) as [e | s] eqn:Es;
    [discriminate |].
  unfold bind, ret. intros H.
  assert (E : team = firstn TEAM_SIZE (rev s)) by congruence.
  subst team. clear H.
  apply (sort_stable v) in Es.
  exists (List.filter (has_power v) (skipn TEAM_SIZE (rev s))).
  rewrite <- filter_app, firstn_skipn, filter_rev, Es, filter_rev.
  symmetry. apply rev_involutive.
Qed.

Lemma naive_select_attackers_stable_witness :
  exists others,
    List.filter (has_power 20)
      [hero_of "a" 20; hero_of "b" 30; hero_of "c" 20]
    = List.filter (has_power 20)
        [hero_of "b" 30; hero_of "a" 20; hero_of "c" 20] ++ others.
Proof.
  apply (naive_select_attackers_stable
           [hero_of "a" 20; hero_of "b" 30; hero_of "c" 20] 20).
  vm_compute. reflexivity.
Defined.

(** ** Team features of a joined team *)

(** X16: the features of two teams put together are the sum of the
    features of the two teams. *)
Theorem make_team_features_app :
  forall (dim : nat) (features : Hero -> Numpy.ndarray dim)
         (team1 team2 : list Hero) (v1 v2 : Numpy.ndarray dim),
    make_team_features features team1 = inr v1 ->
    make_team_features features team2 = inr v2 ->
    make_team_features features (team1 ++ team2) = inr (Numpy.add v1 v2).
Proof.
  intros dim features team1 team2 v1 v2 H1 H2.
  assert (N1 : team1 <> []) by (intros ->; discriminate).
  assert (N2 : team2 <> []) by (intros ->; discriminate).
  rewrite make_team_features_nonempty in H1, H2 by assumption.
  rewrite make_team_features_nonempty
    by (intros E; apply app_eq_nil in E; tauto).
  inversion H1; inversion H2; subst. f_equal.
  rewrite map_app, fold_right_app.
  clear. induction (List.map features team1) as [| a l IH]; simpl.
  - rewrite add_comm. symmetry. apply add_zeros_r.
  - rewrite IH. symmetry. apply add_assoc.
Qed.

Lemma make_team_features_app_witness :
  exists v1 v2,
    make_team_features features_demo pool5_demo = inr v1
    /\ make_team_features features_demo defenders_demo = inr v2
    /\ make_team_features features_demo (pool5_demo ++ defenders_demo)
       = inr (Numpy.add v1 v2).
Proof.
  eexists _, _. split; [reflexivity |]. split; [reflexivity |].
  apply (@make_team_features_app 2 features_demo pool5_demo defenders_demo);
    reflexivity.
Defined.

(** ** The enumerator of disjoint groups, for any sizes *)

Lemma binomial_small (n k : nat) : (n < k)%nat -> binomial n k = 0%nat.
Proof.
  revert k. induction n as [| n IH]; intros k Hk.
  - destruct k; [lia | reflexivity].
  - destruct k; [lia |]. simpl.
    rewrite (IH k) by lia. rewrite (IH (S k)) by lia. reflexivity.
Qed.

Lemma tuples_count_zero (m n k : nat) :
  tuples_count m n k = 0%nat <-> (m < n * k)%nat.
Proof.
  induction n as [| n IH]; simpl.
  - lia.
  - rewrite Nat.eq_mul_0, IH. split.
    + intros [H | H]; [lia |].
      destruct (Nat.le_gt_cases k (m - n * k)) as [Hle | Hlt].
      * pose proof (binomial_pos Hle). lia.
      * lia.
    + intros H. destruct (Nat.le_gt_cases (n * k) m) as [Hle | Hlt]; [| lia].
      right. apply binomial_small. lia.
Qed.

Lemma Permutation_concat_groups {A} (t t' : list (list A)) :
  Permutation t t' -> Permutation (List.concat t) (List.concat t').
Proof.
  induction 1 as [| g t t' _ IH | g1 g2 t | t t' t'' _ IH1 _ IH2]; simpl.
  - constructor.
  - apply Permutation_app_head. exact IH.
  - rewrite !app_assoc. apply Permutation_app_tail. apply Permutation_app_comm.
  - etransitivity; eassumption.
Qed.

(** X17: over a pool with pairwise distinct identifiers, for any number
    [n] of groups and any group size [k], the enumerator yields exactly the
    tuples of [n] [k]-combinations of the pool in which no identifier
    occurs twice, each of them once, and their number is the product of
    the binomials C(m - j*k, k) for j < n, with m the size of the pool. *)
Theorem choose_multiple_enumerates :
  forall (T : Type) (item_id : T -> string) (items : list T) (n k : nat),
    NoDup (List.map item_id items) ->
    (forall t, In t (choose_multiple item_id items n k)
               <-> disjoint_tuple item_id items n k t)
    /\ NoDup (choose_multiple item_id items n k)
    /\ List.length (choose_multiple item_id items n k)
       = tuples_count (List.length items) n k.
Proof.
  intros T item_id items n k Hnd. split; [| split].
  - intros t. apply (@in_choose_multiple T item_id items k Hnd n t).
  - apply (@NoDup_choose_multiple T item_id items k Hnd n).
  - apply (@choose_multiple_length T item_id items k Hnd n).
Qed.

Lemma pool6_demo_distinct : NoDup (List.map id pool6_demo).
Proof.
  apply (NoDup_count_occ' string_dec). intros x Hx.
  repeat (destruct Hx as [<- | Hx]; [vm_compute; reflexivity |]).
  destruct Hx.
Qed.

Lemma choose_multiple_enumerates_witness :
  List.length (choose_multiple id pool6_demo 2 2) = 90%nat.
Proof.
  apply (proj2 (proj2 (@choose_multiple_enumerates Hero id pool6_demo 2 2
                         pool6_demo_distinct))).
Defined.

(** X18: over a pool with pairwise distinct identifiers the enumerator
    yields nothing exactly when the pool is too small for [n] groups of
    [k], that is when it has fewer than [n * k] items. *)
Theorem choose_multiple_empty_iff :
  forall (T : Type) (item_id : T -> string) (items : list T) (n k : nat),
    NoDup (List.map item_id items) ->
    (choose_multiple item_id items n k = []
     <-> (List.length items < n * k)%nat).
Proof.
  intros T item_id items n k Hnd.
  rewrite <- tuples_count_zero.
  rewrite <- (@choose_multiple_length T item_id items k Hnd n).
  split.
  - intros ->. reflexivity.
  - apply length_zero_iff_nil.
Qed.

Lemma choose_multiple_empty_iff_witness :
  choose_multiple id pool6_demo 2 4 = []
  /\ choose_multiple id pool6_demo 3 2 <> [].
Proof.
  pose proof (@choose_multiple_empty_iff Hero id pool6_demo 2 4
                pool6_demo_distinct) as H1.
  pose proof (@choose_multiple_empty_iff Hero id pool6_demo 3 2
                pool6_demo_distinct) as H2.
  split.
  - apply H1. simpl. lia.
  - intros E. apply H2 in E. simpl in E. lia.
Defined.

(** X19: the order of the groups matters to the enumerator: with a tuple
    it yields every reordering of that tuple's groups as well. *)
Theorem choose_multiple_reordered :
  forall (T : Type) (item_id : T -> string) (items : list T) (n k : nat)
         (t t' : list (list T)),
    NoDup (List.map item_id items) ->
    In t (choose_multiple item_id items n k) ->
    Permutation t t' ->
    In t' (choose_multiple item_id items n k).
Proof.
  intros T item_id items n k t t' Hnd Hin Hperm.
  apply (@in_choose_multiple T item_id items k Hnd n) in Hin.
  apply (@in_choose_multiple T item_id items k Hnd n).
  destruct Hin as (Hlen & Hall & Hd). repeat split.
  - rewrite <- Hlen. symmetry. apply Permutation_length. exact Hperm.
  - eapply Permutation_Forall; eassumption.
  - eapply Permutation_NoDup; [| exact Hd].
    apply Permutation_map. apply Permutation_concat_groups. exact Hperm.
Qed.

Lemma choose_multiple_reordered_witness :
  In [[hero_of "c" 30; hero_of "d" 40]; [hero_of "a" 10; hero_of "b" 20]]
     (choose_multiple id pool6_demo 2 2).
Proof.
  apply (@choose_multiple_reordered Hero id pool6_demo 2 2
           [[hero_of "a" 10; hero_of "b" 20]; [hero_of "c" 30; hero_of "d" 40]]).
  - exact pool6_demo_distinct.
  - vm_compute. auto.
  - apply perm_swap.
Defined.

(** ** The time of the next alarm *)

Lemma alarm_loop_positive (interval now : Z) (n : nat) :
  0 < interval -> now + interval <= Bot.MAX_DATETIME ->
  forall (dt : Z) (fuel : nat),
    0 <= dt -> now - dt <= Z.of_nat n * interval -> (n <= fuel)%nat ->
    exists k,
      Bot.alarm_loop fuel dt now interval = Some (inr (dt + k * interval))
      /\ 0 <= k
      /\ now <= dt + k * interval
      /\ (k = 0 \/ dt + k * interval - interval < now).
Proof.
  intros Hpos Hroom. induction n as [| n IH]; intros dt fuel Hdt Hn Hfuel.
  - exists 0. simpl in Hn.
    assert (E : (dt <? now) = false) by (apply Z.ltb_ge; lia).
    assert (Hret : Bot.alarm_loop fuel dt now interval = Some (inr dt))
      by (destruct fuel; simpl; rewrite E; reflexivity).
    rewrite Hret. replace (dt + 0 * interval) with dt by lia.
    split; [reflexivity |]. lia.
  - destruct (dt <? now) eqn:E.
    + apply Z.ltb_lt in E. destruct fuel as [| fuel]; [lia |].
      cbn [Bot.alarm_loop].
      replace (dt <? now) with true by (symmetry; apply Z.ltb_lt; lia).
      unfold Bot.add_timedelta.
      replace ((0 <=? dt + interval) && (dt + interval <=? Bot.MAX_DATETIME))
        with true
        by (symmetry; apply andb_true_iff; split; apply Z.leb_le; lia).
      cbn [ret].
      destruct (IH (dt + interval) fuel) as (k & Hk & Hk0 & Hge & Hmin);
        try lia.
      exists (k + 1). rewrite Hk.
      replace (dt + interval + k * interval) with (dt + (k + 1) * interval)
        in * by lia.
      split; [reflexivity |]. lia.
    + exists 0.
      assert (Hret : Bot.alarm_loop fuel dt now interval = Some (inr dt))
        by (destruct fuel; simpl; rewrite E; reflexivity).
      rewrite Hret. replace (dt + 0 * interval) with dt by lia.
      apply Z.ltb_ge in E. split; [reflexivity |]. lia.
Qed.

Lemma alarm_start_bounds (clock : Z) (t : Bot.time) :
  Bot.valid_datetime clock -> Bot.valid_time t ->
  let now := Bot.replace_microsecond_0 clock in
  let dt := Bot.replace_time now (Bot.hour t) (Bot.minute t) (Bot.second t) in
  0 <= now <= clock
  /\ now mod Bot.SECOND = 0
  /\ dt = now - now mod Bot.DAY
          + (Bot.hour t * 3600 + Bot.minute t * 60 + Bot.second t) * Bot.SECOND
  /\ 0 <= now mod Bot.DAY < Bot.DAY
  /\ 0 <= (Bot.hour t * 3600 + Bot.minute t * 60 + Bot.second t) * Bot.SECOND
     < Bot.DAY.
Proof.
  intros [Hc0 Hc1] (Hh & Hm & Hs). cbv zeta.
  unfold Bot.replace_microsecond_0, Bot.replace_time.
  assert (HS : 0 < Bot.SECOND) by (unfold Bot.SECOND; lia).
  assert (HD : 0 < Bot.DAY) by (unfold Bot.DAY, Bot.SECOND; lia).
  pose proof (Z.mod_pos_bound clock Bot.SECOND HS) as B1.
  pose proof (Z.mod_le clock Bot.SECOND Hc0 HS) as B0.
  assert (E0 : (clock - clock mod Bot.SECOND) mod Bot.SECOND = 0).
  { rewrite Zminus_mod_idemp_r, Z.sub_diag. apply Z.mod_0_l. lia. }
  pose proof (Z.mod_pos_bound (clock - clock mod Bot.SECOND) Bot.DAY HD) as B2.
  split; [lia |]. split; [exact E0 |]. split; [rewrite E0; lia |].
  split; [lia |]. unfold Bot.DAY, Bot.SECOND in *. lia.
Qed.

(** X20: for a positive interval, and as long as [datetime.max] is not in
    reach, the loop of [alarm_time] ends and returns a time that is not
    before the current whole second: the alarm time of the current day
    when that is not over yet, and otherwise the first of the later times
    one interval apart that is not before now. *)
Theorem alarm_time_next :
  forall (clock : Bot.datetime) (t : Bot.time) (interval : Bot.timedelta),
    Bot.valid_datetime clock -> Bot.valid_time t ->
    0 < interval -> clock + interval <= Bot.MAX_DATETIME ->
    let now := Bot.replace_microsecond_0 clock in
    let today := Bot.replace_time now (Bot.hour t) (Bot.minute t)
                   (Bot.second t) in
    exists (enough : nat) (k : Z),
      (forall fuel, (enough <= fuel)%nat ->
                    Bot.alarm_time fuel clock t interval
                    = Some (inr (today + k * interval)))
      /\ 0 <= k
      /\ now <= today + k * interval
      /\ clock - Bot.SECOND < today + k * interval
      /\ (k = 0 \/ today + k * interval - interval < now).
Proof.
  intros clock t interval Hc Ht Hpos Hroom now today.
  destruct (alarm_start_bounds Hc Ht) as (Hnow & Hsec & Hdt & Hday & Hhms).
  fold now in Hnow, Hsec, Hdt, Hday. fold today in Hdt.
  assert (HD : 0 < Bot.DAY) by (unfold Bot.DAY, Bot.SECOND; lia).
  pose proof (Z.mod_le now Bot.DAY (proj1 Hnow) HD) as Hle.
  assert (Hn : now - today <= Z.of_nat (Z.to_nat Bot.DAY) * interval).
  { rewrite Z2Nat.id by lia. nia. }
  destruct (@alarm_loop_positive interval now (Z.to_nat Bot.DAY) Hpos
              ltac:(lia) today (Z.to_nat Bot.DAY) ltac:(lia) Hn (le_n _))
    as (k & _ & Hk0 & Hge & Hmin).
  exists (Z.to_nat Bot.DAY), k. split.
  - intros fuel Hfuel. unfold Bot.alarm_time. fold now. fold today.
    destruct (@alarm_loop_positive interval now (Z.to_nat Bot.DAY) Hpos
                ltac:(lia) today fuel ltac:(lia) Hn Hfuel)
      as (k' & Hk' & Hk0' & Hge' & Hmin').
    rewrite Hk'. f_equal. f_equal.
    assert (k' = k); [| subst; reflexivity].
    destruct Hmin as [-> | Hmin], Hmin' as [-> | Hmin']; nia.
  - repeat split; try assumption.
    unfold Bot.replace_microsecond_0 in now.
    pose proof (Z.mod_pos_bound clock Bot.SECOND
                  ltac:(unfold Bot.SECOND; lia)).
    subst now. lia.
Qed.

Lemma alarm_time_next_witness :
  exists (enough : nat) (k : Z),
    (forall fuel, (enough <= fuel)%nat ->
                  Bot.alarm_time fuel (90000 * Bot.SECOND + 7)
                    {| Bot.hour := 0; Bot.minute := 30; Bot.second := 0 |}
                    Bot.FARM_MAIL_INTERVAL
                  = Some (inr (Bot.replace_time
                                 (Bot.replace_microsecond_0
                                    (90000 * Bot.SECOND + 7)) 0 30 0
                               + k * Bot.FARM_MAIL_INTERVAL)))
    /\ 0 <= k.
Proof.
  destruct (@alarm_time_next (90000 * Bot.SECOND + 7)
              {| Bot.hour := 0; Bot.minute := 30; Bot.second := 0 |}
              Bot.FARM_MAIL_INTERVAL)
    as (enough & k & Hret & Hk & _).
  - unfold Bot.valid_datetime, Bot.MAX_DATETIME, Bot.DAY, Bot.SECOND. lia.
  - unfold Bot.valid_time. simpl. lia.
  - unfold Bot.FARM_MAIL_INTERVAL, Bot.SECOND. lia.
  - unfold Bot.FARM_MAIL_INTERVAL, Bot.MAX_DATETIME, Bot.DAY, Bot.SECOND. lia.
  - exists enough, k. split; [exact Hret | exact Hk].
Defined.

(** X21: with the default interval of one day a single turn of the loop
    is enough, and the result is the next occurrence of the given time of
    day: at that time of day, not before the current whole second and
    less than a day after it. *)
Theorem alarm_time_daily :
  forall (clock : Bot.datetime) (t : Bot.time),
    Bot.valid_datetime clock -> Bot.valid_time t ->
    clock + Bot.DAY <= Bot.MAX_DATETIME ->
    let now := Bot.replace_microsecond_0 clock in
    exists dt,
      (forall fuel, (1 <= fuel)%nat ->
                    Bot.alarm_time fuel clock t Bot.DEFAULT_INTERVAL
                    = Some (inr dt))
      /\ now <= dt < now + Bot.DAY
      /\ dt mod Bot.DAY
         = (Bot.hour t * 3600 + Bot.minute t * 60 + Bot.second t) * Bot.SECOND.
Proof.
  intros clock t Hc Ht Hroom now.
  destruct (alarm_start_bounds Hc Ht) as (Hnow & Hsec & Hdt & Hday & Hhms).
  fold now in Hnow, Hsec, Hdt, Hday.
  set (today := Bot.replace_time now (Bot.hour t) (Bot.minute t)
                  (Bot.second t)) in *.
  assert (HD : 0 < Bot.DAY) by (unfold Bot.DAY, Bot.SECOND; lia).
  pose proof (Z.mod_le now Bot.DAY (proj1 Hnow) HD) as Hle.
  assert (Hn : now - today <= Z.of_nat 1 * Bot.DAY) by lia.
  destruct (@alarm_loop_positive Bot.DAY now 1 HD ltac:(lia) today 1%nat
              ltac:(lia) Hn (le_n _))
    as (k & _ & Hk0 & Hge & Hmin).
  exists (today + k * Bot.DAY). split; [| split].
  - intros fuel Hfuel. unfold Bot.alarm_time, Bot.DEFAULT_INTERVAL.
    fold now. fold today.
    destruct (@alarm_loop_positive Bot.DAY now 1 HD ltac:(lia) today fuel
                ltac:(lia) Hn Hfuel)
      as (k' & Hk' & Hk0' & Hge' & Hmin').
    rewrite Hk'. f_equal. f_equal.
    assert (k' = k); [| subst; reflexivity].
    destruct Hmin as [-> | Hmin], Hmin' as [-> | Hmin']; nia.
  - destruct Hmin as [-> | Hmin]; lia.
  - rewrite Hdt.
    rewrite (Z.div_mod now Bot.DAY) at 1 by lia.
    replace (Bot.DAY * (now / Bot.DAY) + now mod Bot.DAY - now mod Bot.DAY
             + (Bot.hour t * 3600 + Bot.minute t * 60 + Bot.second t)
               * Bot.SECOND + k * Bot.DAY)
      with ((Bot.hour t * 3600 + Bot.minute t * 60 + Bot.second t)
            * Bot.SECOND + (now / Bot.DAY + k) * Bot.DAY) by lia.
    rewrite Z_mod_plus_full. apply Z.mod_small. exact Hhms.
Qed.

Lemma alarm_time_daily_witness :
  exists dt,
    (forall fuel, (1 <= fuel)%nat ->
                  Bot.alarm_time fuel (90000 * Bot.SECOND + 7)
                    {| Bot.hour := 0; Bot.minute := 30; Bot.second := 0 |}
                    Bot.DEFAULT_INTERVAL = Some (inr dt))
    /\ dt mod Bot.DAY = (0 * 3600 + 30 * 60 + 0) * Bot.SECOND.
Proof.
  destruct (@alarm_time_daily (90000 * Bot.SECOND + 7)
              {| Bot.hour := 0; Bot.minute := 30; Bot.second := 0 |})
    as (dt & Hret & _ & Hmod).
  - unfold Bot.valid_datetime, Bot.MAX_DATETIME, Bot.DAY, Bot.SECOND. lia.
  - unfold Bot.valid_time. simpl. lia.
  - unfold Bot.MAX_DATETIME, Bot.DAY, Bot.SECOND. lia.
  - exists dt. split; [exact Hret | exact Hmod].
Defined.

Lemma alarm_loop_zero (fuel : nat) (dt now : Z) :
  0 <= dt <= Bot.MAX_DATETIME -> dt < now ->
  Bot.alarm_loop fuel dt now 0 = None.
Proof.
  intros Hv Hlt.
  assert (E : (dt <? now) = true) by (apply Z.ltb_lt; exact Hlt).
  assert (Ea : Bot.add_timedelta dt 0 = inr dt).
  { unfold Bot.add_timedelta. rewrite Z.add_0_r.
    replace ((0 <=? dt) && (dt <=? Bot.MAX_DATETIME)) with true; [reflexivity |].
    symmetry. apply andb_true_iff. split; apply Z.leb_le; lia. }
  induction fuel as [| fuel IH]; simpl; rewrite E; [reflexivity |].
  rewrite Ea. exact IH.
Qed.

Lemma alarm_loop_negative (interval now : Z) (n : nat) :
  interval < 0 -> now <= Bot.MAX_DATETIME ->
  forall (dt : Z) (fuel : nat),
    0 <= dt < now -> dt <= Z.of_nat n -> (S n <= fuel)%nat ->
    Bot.alarm_loop fuel dt now interval = Some (inl OverflowError).
Proof.
  intros Hneg Hmax. induction n as [| n IH]; intros dt fuel Hdt Hn Hfuel;
    (destruct fuel as [| fuel]; [lia |]); cbn [Bot.alarm_loop];
    (replace (dt <? now) with true by (symmetry; apply Z.ltb_lt; lia));
    unfold Bot.add_timedelta.
  - replace (0 <=? dt + interval) with false
      by (symmetry; apply Z.leb_gt; simpl in Hn; lia).
    reflexivity.
  - destruct (0 <=? dt + interval) eqn:E0; [| reflexivity].
    apply Z.leb_le in E0.
    replace (dt + interval <=? Bot.MAX_DATETIME) with true
      by (symmetry; apply Z.leb_le; lia).
    cbn [andb ret]. apply IH; lia.
Qed.

(** X22: an interval that is not positive does not bring a past alarm
    time forward: when the alarm time of the day is over, a zero interval
    keeps the loop running whatever the number of turns, and a negative
    interval ends it with [OverflowError] once the date falls out of
    range. *)
Theorem alarm_time_bad_interval :
  forall (clock : Bot.datetime) (t : Bot.time) (interval : Bot.timedelta),
    Bot.valid_datetime clock -> Bot.valid_time t ->
    Bot.replace_time (Bot.replace_microsecond_0 clock)
      (Bot.hour t) (Bot.minute t) (Bot.second t)
    < Bot.replace_microsecond_0 clock ->
    (interval = 0 ->
     forall fuel, Bot.alarm_time fuel clock t interval = None)
    /\ (interval < 0 ->
        exists enough,
          forall fuel, (enough <= fuel)%nat ->
                       Bot.alarm_time fuel clock t interval
                       = Some (inl OverflowError)).
Proof.
  intros clock t interval Hc Ht Hpast.
  destruct (alarm_start_bounds Hc Ht) as (Hnow & Hsec & Hdt & Hday & Hhms).
  assert (HD : 0 < Bot.DAY) by (unfold Bot.DAY, Bot.SECOND; lia).
  pose proof (Z.mod_le (Bot.replace_microsecond_0 clock) Bot.DAY
                (proj1 Hnow) HD) as Hle.
  destruct Hc as [Hc0 Hc1].
  split.
  - intros -> fuel. unfold Bot.alarm_time. apply alarm_loop_zero; lia.
  - intros Hneg.
    exists (S (Z.to_nat (Bot.replace_microsecond_0 clock))).
    intros fuel Hfuel. unfold Bot.alarm_time.
    apply (@alarm_loop_negative interval (Bot.replace_microsecond_0 clock)
             (Z.to_nat (Bot.replace_microsecond_0 clock))); try lia.
Qed.

Lemma alarm_time_bad_interval_witness :
  Bot.alarm_time 1000 (90000 * Bot.SECOND + 7)
    {| Bot.hour := 0; Bot.minute := 30; Bot.second := 0 |} 0 = None.
Proof.
  apply (proj1 (@alarm_time_bad_interval (90000 * Bot.SECOND + 7)
                  {| Bot.hour := 0; Bot.minute := 30; Bot.second := 0 |} 0
                  ltac:(unfold Bot.valid_datetime, Bot.MAX_DATETIME, Bot.DAY,
                          Bot.SECOND; lia)
                  ltac:(unfold Bot.valid_time; simpl; lia)
                  ltac:(vm_compute; reflexivity))).
  reflexivity.
Defined.

(** ** The features of a recorded battle *)

Lemma dict_get_set (d : Trainer.int_dict) (key key' : string) (value : Z) :
  Trainer.dict_get (Trainer.dict_set d key value) key' =
  if String.eqb key key' then Some value else Trainer.dict_get d key'.
Proof.
  induction d as [| [k v] d IH]; simpl.
  - destruct (String.eqb key key'); reflexivity.
  - destruct (String.eqb k key) eqn:E; simpl.
    + apply String.eqb_eq in E. subst k.
      destruct (String.eqb key key'); reflexivity.
    + rewrite IH. destruct (String.eqb k key') eqn:E'; [| reflexivity].
      apply String.eqb_eq in E'. subst k.
      destruct (String.eqb key key') eqn:E2; [| reflexivity].
      apply String.eqb_eq in E2. subst key'.
      rewrite String.eqb_refl in E. discriminate.
Qed.

Lemma value_at_add (d : Trainer.int_dict) (key key' : string) (delta : Z) :
  value_at (Trainer.defaultdict_add d key delta) key' =
  value_at d key' + (if String.eqb key key' then delta else 0).
Proof.
  unfold value_at, Trainer.defaultdict_add. rewrite dict_get_set.
  destruct (String.eqb key key') eqn:E.
  - apply String.eqb_eq in E. subst key'. reflexivity.
  - lia.
Qed.

Lemma value_at_fold_items (m : Z) (items d : Trainer.int_dict) (key : string) :
  dict_keys_unique items ->
  value_at
    (fold_left
       (fun result kv => Trainer.defaultdict_add result (fst kv) (m * snd kv))
       items d) key
  = value_at d key + m * value_at items key.
Proof.
  unfold dict_keys_unique. revert d.
  induction items as [| [k v] items IH]; intros d Hu; simpl.
  - unfold value_at. simpl. lia.
  - inversion Hu as [| ? ? Hk Hu']; subst.
    rewrite IH by exact Hu'. rewrite value_at_add.
    unfold value_at. simpl.
    destruct (String.eqb k key) eqn:E; [| lia].
    apply String.eqb_eq in E. subst k.
    assert (Hnone : Trainer.dict_get items key = None).
    { clear - Hk. induction items as [| [k' v'] items IH]; [reflexivity |].
      simpl in *. destruct (String.eqb k' key) eqn:E.
      - apply String.eqb_eq in E. subst. exfalso. apply Hk. left; reflexivity.
      - apply IH. intros H. apply Hk. right; exact H. }
    rewrite Hnone. lia.
Qed.

Lemma value_at_parse_heroes {RawHero : Type}
    (feature_dict : RawHero -> Trainer.int_dict) (heroes : list RawHero)
    (is_attackers : bool) (result : Trainer.int_dict) (key : string) :
  (forall hero, In hero heroes -> dict_keys_unique (feature_dict hero)) ->
  value_at (Trainer.parse_heroes feature_dict heroes is_attackers result) key
  = value_at result key
    + (if is_attackers then 1 else -1) * feature_total feature_dict key heroes.
Proof.
  unfold Trainer.parse_heroes. revert result.
  induction heroes as [| hero heroes IH]; intros result Hu; simpl.
  - lia.
  - rewrite IH by (intros h Hh; apply Hu; right; exact Hh).
    rewrite value_at_fold_items by (apply Hu; left; reflexivity).
    lia.
Qed.

(** X23: after [parse_heroes] the value of every feature is its old value
    (0 for a new key) plus, for attackers, or minus, for defenders, the
    total of that feature over the heroes. *)
Theorem parse_heroes_adds_totals :
  forall (RawHero : Type) (feature_dict : RawHero -> Trainer.int_dict)
         (heroes : list RawHero) (result : Trainer.int_dict) (key : string),
    (forall hero, In hero heroes -> dict_keys_unique (feature_dict hero)) ->
    value_at (Trainer.parse_heroes feature_dict heroes true result) key
    = value_at result key + feature_total feature_dict key heroes
    /\ value_at (Trainer.parse_heroes feature_dict heroes false result) key
       = value_at result key - feature_total feature_dict key heroes.
Proof.
  intros RawHero feature_dict heroes result key Hu.
  rewrite !value_at_parse_heroes by exact Hu. lia.
Qed.

Lemma parse_heroes_adds_totals_witness :
  value_at
    (Trainer.parse_heroes (fun h : Trainer.int_dict => h)
       [[("level", 3); ("star", 2)]; [("level", 4)]]%string true
       [("level", 10)]%string) "level"
  = value_at [("level", 10)]%string "level"
    + feature_total (fun h : Trainer.int_dict => h) "level"
        [[("level", 3); ("star", 2)]; [("level", 4)]]%string.
Proof.
  apply (@parse_heroes_adds_totals Trainer.int_dict (fun h => h)
           [[("level", 3); ("star", 2)]; [("level", 4)]]%string
           [("level", 10)]%string "level"%string).
  intros hero [<- | [<- | []]]; unfold dict_keys_unique; simpl;
    repeat constructor; simpl; intuition discriminate.
Defined.

(** X24: the features are differential: counting a team as attackers and
    then the same team as defenders leaves the value of every feature as
    it was, and counting two teams one as attackers and one as defenders
    gives, from an empty dictionary, the difference of their totals. *)
Theorem parse_heroes_differential :
  forall (RawHero : Type) (feature_dict : RawHero -> Trainer.int_dict)
         (attackers defenders : list RawHero) (result : Trainer.int_dict)
         (key : string),
    (forall hero, In hero attackers -> dict_keys_unique (feature_dict hero)) ->
    (forall hero, In hero defenders -> dict_keys_unique (feature_dict hero)) ->
    value_at
      (Trainer.parse_heroes feature_dict attackers false
         (Trainer.parse_heroes feature_dict attackers true result)) key
    = value_at result key
    /\ value_at
         (Trainer.parse_heroes feature_dict defenders false
            (Trainer.parse_heroes feature_dict attackers true [])) key
       = feature_total feature_dict key attackers
         - feature_total feature_dict key defenders.
Proof.
  intros RawHero feature_dict attackers defenders result key Ha Hd.
  rewrite !value_at_parse_heroes by assumption.
  change (value_at [] key) with 0. lia.
Qed.

Lemma parse_heroes_differential_witness :
  value_at
    (Trainer.parse_heroes (fun h : Trainer.int_dict => h)
       [[("level", 4)]]%string false
       (Trainer.parse_heroes (fun h : Trainer.int_dict => h)
          [[("level", 3); ("star", 2)]]%string true [])) "level"
  = feature_total (fun h : Trainer.int_dict => h) "level"
      [[("level", 3); ("star", 2)]]%string
    - feature_total (fun h : Trainer.int_dict => h) "level"
        [[("level", 4)]]%string.
Proof.
  apply (proj2 (@parse_heroes_differential Trainer.int_dict (fun h => h)
                  [[("level", 3); ("star", 2)]]%string
                  [[("level", 4)]]%string [] "level"%string
                  ltac:(intros hero [<- | []]; unfold dict_keys_unique; simpl;
                        repeat constructor; simpl; intuition discriminate)
                  ltac:(intros hero [<- | []]; unfold dict_keys_unique; simpl;
                        repeat constructor; simpl; intuition discriminate))).
Defined.

(** ** The order of the defenders *)

Lemma make_team_features_perm (dim : nat)
    (features : Hero -> Numpy.ndarray dim) (heroes heroes' : list Hero) :
  Permutation heroes heroes' ->
  make_team_features features heroes = make_team_features features heroes'.
Proof.
  intros Hperm. destruct heroes as [| h hs].
  - apply Permutation_nil in Hperm. subst. reflexivity.
  - assert (Hne : heroes' <> []).
    { intros ->. apply Permutation_sym, Permutation_nil in Hperm.
      discriminate. }
    rewrite !make_team_features_nonempty by (assumption || discriminate).
    f_equal. apply fold_right_add_perm. apply Permutation_map. exact Hperm.
Qed.

(** X25: the order in which the defenders are listed is of no
    consequence: the single-team selection against a reordered defending
    team gives the same outcome, the same team and probability or the same
    error. *)
Theorem model_select_attackers_defenders_order :
  forall (dim : nat) (features : Hero -> Numpy.ndarray dim) (model : Model dim)
         (heroes defenders defenders' : list Hero),
    Permutation defenders defenders' ->
    model_select_attackers features model heroes defenders
    = model_select_attackers features model heroes defenders'.
Proof.
  intros dim features model heroes defenders defenders' Hperm.
  unfold model_select_attackers.
  rewrite (make_team_features_perm features Hperm). reflexivity.
Qed.

Lemma model_select_attackers_defenders_order_witness :
  model_select_attackers features_demo model_demo pool6_demo
    [hero_of "x1" 15; hero_of "x2" 25; hero_of "x3" 35]
  = model_select_attackers features_demo model_demo pool6_demo
      [hero_of "x2" 25; hero_of "x1" 15; hero_of "x3" 35].
Proof.
  apply (@model_select_attackers_defenders_order 2 features_demo model_demo
           pool6_demo).
  apply perm_swap.
Defined.
